(** * helper.py: augmentation and batching for a behavioural-cloning model

    A shallow embedding of [src/helper.py] and the properties its
    specification states about it.

    Conventions of the embedding.
    - The module is Python 3 code: [/] is true division, also between two
      integers, and a division by zero raises [ZeroDivisionError];
      [random.randint] takes a float bound that denotes an integer and
      refuses any other with [ValueError].
    - A Python [int] is a [Z].  A Python [float] is modelled by the exact
      rational it denotes, a canonical rational [Qc]; rounding, infinities
      and NaN are not modelled.  [np.pi] is the rational value of the
      double nearest to pi.
    - An image is an array of rows of pixels of channel values.  Arrays
      live in a heap of buffers; an [ndarray] is a handle on a buffer seen
      through a view, as [np.fliplr] and slicing build them.
    - The two global random generators ([random] and [np.random]) are two
      streams of raw integers in the state; every drawing function maps the
      next raw integer into its range.
    - The calls into OpenCV and Matplotlib follow their documented
      contracts (shape of the result, where it is written); what they put
      in each pixel is left to a [Cv2] instance. *)

From Stdlib Require Import ZArith QArith Qcanon Qround Lia Lqa Bool Ascii String.
From stdpp Require Import base option list strings gmap.

Local Open Scope Z_scope.

(** ** Python values *)

(** A float literal [x] of the source is written [fl x]. *)
Definition fl (q : Q) : Qc := Q2Qc q.

(** [float(n)] for an integer [n], the implicit conversion of mixed
    arithmetic. *)
Definition of_int (n : Z) : Qc := Q2Qc (inject_Z n).

(** The integer a float denotes, when it denotes one ([int(x) == x]). *)
Definition as_integer (x : Qc) : option Z :=
  if Pos.eqb (Qden (this x)) 1 then Some (Qnum (this x)) else None.

Definition Qc_ltb (x y : Qc) : bool := Z.ltb (Qnum x * QDen y) (Qnum y * QDen x).
Definition Qc_eqb (x y : Qc) : bool := Qeq_bool x y.

Inductive exn : Type :=
  | NameError (name : string)
  | ValueError (msg : string)
  | TypeError (msg : string)
  | AttributeError (msg : string)
  | IndexError
  | ZeroDivisionError
  | cv2_error (msg : string)
  | IOError (path : string)
  | StopIteration.

Inductive result (A : Type) : Type :=
  | Ok (a : A)
  | Raise (e : exn).
Arguments Ok {A} a.
Arguments Raise {A} e.

(** ** Module constants (helper.py, lines 10-20) *)

Definition COLUMNS : list string :=
  ["center"; "left"; "right"; "steering"; "throttle"; "brake"; "speed"]%string.

(** [COLUMNS.index(name)]; the names looked up in the module are all in
    the list, so the [ValueError] of a missing name never shows. *)
Fixpoint list_index (name : string) (l : list string) : nat :=
  match l with
  | [] => O
  | x :: l' => if String.eqb x name then O else S (list_index name l')
  end.

Definition HORIZON : nat := 60.
Definition BONNET : nat := 136.

Definition offset : Qc := fl 1.0.
Definition dist : Qc := fl 15.0.

(** The double [np.pi] is 884279719003555 / 2^48. *)
Definition np_pi : Qc := Q2Qc (884279719003555 # 281474976710656).

Definition STEERING_COEFFICIENT : Qc :=
  (offset / dist * of_int 360 / (of_int 2 * np_pi) / fl 25.0)%Qc.

(** ** Images, buffers and views *)

(** What OpenCV computes for one channel of one pixel.  The embedding fixes
    the shape of every result and the place it is written to; the values
    come from an instance of this class. *)
Class Cv2 : Type := {
  chan : Type;
  (** a colour scalar stored in the array's element type *)
  scalar : Z -> chan;
  (** [hsv[:,:,2] * random_bright], stored back in the element type *)
  scale : chan -> Qc -> chan;
  (** one element of [addWeighted]: [a*alpha + b*beta + gamma] *)
  blend : chan -> Qc -> chan -> Qc -> Qc -> chan;
  rgb2hsv : chan * chan * chan -> chan * chan * chan;
  hsv2rgb : chan * chan * chan -> chan * chan * chan;
  (** does [fillPoly] paint the pixel in column [x], row [y]? *)
  in_poly : list (Z * Z) -> nat -> nat -> bool;
  affine : Type;
  getAffineTransform : list (Qc * Qc) -> list (Qc * Qc) -> affine;
  (** [warpAffine] at row, column, channel of the destination *)
  remap : list (list (list chan)) -> affine -> nat -> nat -> nat -> chan;
  (** [resize] at row, column, channel of the destination *)
  resample : list (list (list chan)) -> nat -> nat -> nat -> nat -> nat -> chan
}.

(** An image: rows x columns x channels. *)
Abbreviation image := (list (list (list chan))).

Section Helper.
Context `{K : Cv2}.

Definition shape (img : image) : nat * nat * nat :=
  (length img, length (hd [] img), length (hd [] (hd [] img))).

(** Every row has the width and every pixel the depth that [shape] reports. *)
Definition rectangular (img : image) : Prop :=
  Forall (fun row => length row = (shape img).1.2
                     /\ Forall (fun px => length px = (shape img).2) row) img.

(** The images of the data model: non-empty rasters. *)
Definition raster (img : image) : Prop :=
  rectangular img /\ (0 < (shape img).1.1)%nat /\ (0 < (shape img).1.2)%nat.

(** Three-channel rasters. *)
Definition rgb_raster (img : image) : Prop :=
  raster img /\ (shape img).2 = 3%nat.

(** [build r c k f] is the r x c x k array whose element (i, j, l) is
    [f i j l]. *)
Definition build (r c k : nat) (f : nat -> nat -> nat -> chan) : image :=
  (fun i => (fun j => f i j <$> seq 0 k) <$> seq 0 c) <$> seq 0 r.

(** The Python slice [l[lo:hi]] for 0 <= lo, hi. *)
Definition slice {A} (lo hi : nat) (l : list A) : list A :=
  take (hi - lo) (drop lo l).

Inductive vop : Type :=
  | Fliplr
  | Window (r0 r1 c0 c1 : nat).

Definition apply_vop (op : vop) (img : image) : image :=
  match op with
  | Fliplr => reverse <$> img
  | Window r0 r1 c0 c1 => slice c0 c1 <$> slice r0 r1 img
  end.

(** Writing [new] in place of what the view shows of [b]. *)
Definition put_vop (op : vop) (b new : image) : image :=
  match op with
  | Fliplr => reverse <$> new
  | Window r0 r1 c0 c1 =>
      take r0 b
      ++ zip_with (fun old row => take c0 old ++ row ++ drop c1 old)
                  (slice r0 r1 b) new
      ++ drop r1 b
  end.

Fixpoint write_view (ops : list vop) (b new : image) : image :=
  match ops with
  | [] => new
  | op :: ops' => put_vop op b (write_view ops' (apply_vop op b) new)
  end.

(** A handle: the buffer it reads and the view it reads it through. *)
Record ndarray : Type := { base : nat; view : list vop }.

(** ** The state: heap, module globals, random generators, files *)

#[warnings="-register-all"]
Inductive pyobj : Type :=
  | PInt (n : Z)
  | PFloat (x : Qc)
  | PStr (s : string)
  | PSeq (l : list pyobj)
  | PObject (descr : string).

Record world : Type := {
  heap : list image;
  globals : gmap string pyobj;
  py_rng : nat -> Z;          (* the generator of [random] *)
  np_rng : nat -> Z;          (* the generator of [np.random] *)
  files : string -> result image
}.

Definition M (A : Type) : Type := world -> result A * world.

Definition ret {A} (a : A) : M A := fun w => (Ok a, w).
Definition raise {A} (e : exn) : M A := fun w => (Raise e, w).
Definition bind {A B} (c : M A) (k : A -> M B) : M B :=
  fun w => match c w with
           | (Ok a, w') => k a w'
           | (Raise e, w') => (Raise e, w')
           end.

Notation "x <- c ;; k" := (bind c (fun x => k))
  (at level 100, c at next level, right associativity).
Notation "c ;;; k" := (bind c (fun _ => k))
  (at level 100, right associativity).

(** What a handle shows. *)
Definition deref (h : list image) (a : ndarray) : image :=
  foldl (fun img op => apply_vop op img) (default [] (h !! base a)) (view a).

Definition read (a : ndarray) : M image := fun w => (Ok (deref (heap w) a), w).

Definition set_heap (h : list image) (w : world) : world :=
  {| heap := h; globals := globals w;
     py_rng := py_rng w; np_rng := np_rng w; files := files w |}.

Definition alloc (img : image) : M ndarray :=
  fun w => (Ok {| base := length (heap w); view := [] |},
            set_heap (heap w ++ [img]) w).

(** Store [img] through the handle: the buffer changes, in place. *)
Definition store (a : ndarray) (img : image) : M unit :=
  fun w => (Ok tt,
            set_heap (alter (fun b => write_view (view a) b img) (base a) (heap w)) w).

Definition load_global (name : string) : M pyobj :=
  fun w => match globals w !! name with
           | Some v => (Ok v, w)
           | None => (Raise (NameError name), w)
           end.

(** *** Random draws *)

(** The state after one draw from [random], from [np.random]. *)
Definition py_advance (w : world) : world :=
  {| heap := heap w; globals := globals w;
     py_rng := fun n => py_rng w (S n); np_rng := np_rng w; files := files w |}.

Definition np_advance (w : world) : world :=
  {| heap := heap w; globals := globals w;
     py_rng := py_rng w; np_rng := fun n => np_rng w (S n); files := files w |}.

Definition py_raw : M Z := fun w => (Ok (py_rng w 0%nat), py_advance w).

Definition np_raw : M Z := fun w => (Ok (np_rng w 0%nat), np_advance w).

(** 53 random bits over 2^53: a float in [0, 1). *)
Definition unit_float (raw : Z) : Qc := Q2Qc ((raw mod 2 ^ 53) # (2 ^ 53)).

(** [random.random()] *)
Definition random_random : M Qc := raw <- py_raw ;; ret (unit_float raw).

(** [random.randint(a, b)]: [randrange(a, b + 1)], which refuses bounds
    that are not integers and an empty range before it draws. *)
Definition random_randint (a b : Qc) : M Z :=
  match as_integer a with
  | None => raise (ValueError "non-integer arg 1 for randrange()")
  | Some istart =>
      match as_integer (b + of_int 1)%Qc with
      | None => raise (ValueError "non-integer stop for randrange()")
      | Some istop =>
          if 0 <? istop - istart
          then raw <- py_raw ;; ret (istart + raw mod (istop - istart))
          else raise (ValueError "empty range for randrange()")
      end
  end.

(** [np.random.uniform(low, high)] *)
Definition np_random_uniform (low high : Qc) : M Qc :=
  raw <- np_raw ;; ret (low + (high - low) * unit_float raw)%Qc.

(** What [np.random.randint] raises on an empty range: the message names
    [high] alone when [low] is 0. *)
Definition empty_range (low : Z) : exn :=
  ValueError (if low =? 0 then "high <= 0" else "low >= high").

(** [np.random.randint(low, high)]: an integer of [low, high).  NumPy
    draws 64-bit integers and refuses bounds beyond them; the integers
    here are unbounded, so what is said of a range that the caller
    chooses is said of ranges within 64 bits. *)
Definition np_random_randint (low high : Z) : M Z :=
  if high <=? low then raise (empty_range low)
  else raw <- np_raw ;; ret (low + raw mod (high - low)).

(** [np.random.randint(low, high, size)]: for [size] 0 an empty array,
    whatever the range. *)
Fixpoint np_random_randint_n (low high : Z) (size : nat) : M (list Z) :=
  match size with
  | O => ret []
  | S n =>
      x <- np_random_randint low high ;;
      xs <- np_random_randint_n low high n ;;
      ret (x :: xs)
  end.

(** ** The library calls of the module *)

(** [image.copy()]: a fresh buffer holding what the handle shows. *)
Definition ndarray_copy (a : ndarray) : M ndarray :=
  img <- read a ;; alloc img.

(** [np.fliplr(image)]: a view on the same buffer, columns reversed. *)
Definition np_fliplr (a : ndarray) : ndarray :=
  {| base := base a; view := view a ++ [Fliplr] |}.

(** [image[r0:r1, c0:c1, :]]: a view on the same buffer. *)
Definition getitem_window (a : ndarray) (r0 r1 c0 c1 : nat) : ndarray :=
  {| base := base a; view := view a ++ [Window r0 r1 c0 c1] |}.

(** [a[:,:,k] = f(a[:,:,k])], in place. *)
Definition map_channel (k : nat) (f : chan -> chan) (img : image) : image :=
  (fun row : list (list chan) => (fun px : list chan => alter f k px) <$> row) <$> img.

Definition setitem_channel (a : ndarray) (k : nat) (f : chan -> chan) : M unit :=
  img <- read a ;; store a (map_channel k f img).

(** [cv2.fillPoly(img, [poly], color)] paints [img] in place. *)
Definition fill (poly : list (Z * Z)) (color : Z) (img : image) : image :=
  imap (fun y (row : list (list chan)) =>
    imap (fun x (px : list chan) =>
            if in_poly poly x y then (fun _ => scalar color) <$> px else px) row)
    img.

Definition cv2_fillPoly (a : ndarray) (poly : list (Z * Z)) (color : Z) : M unit :=
  img <- read a ;; store a (fill poly color img).

Definition bool_decide_shape (s1 s2 : nat * nat * nat) : bool :=
  bool_decide (s1 = s2).

Definition weighted (i1 : image) (alpha : Qc) (i2 : image) (beta gamma : Qc) : image :=
  zip_with (zip_with (zip_with (fun a b => blend a alpha b beta gamma))) i1 i2.

(** Does the view run through its columns backwards in memory?  Each
    [np.fliplr] negates the stride of the columns; a window keeps it. *)
Definition is_fliplr (op : vop) : bool :=
  match op with Fliplr => true | Window _ _ _ _ => false end.

Definition reversed (ops : list vop) : bool :=
  Nat.odd (length (List.filter is_fliplr ops)).

(** [cv2.addWeighted(src1, alpha, src2, beta, gamma, dst)]: an array
    given as [dst] must have the layout of an OpenCV matrix, which a view
    with reversed columns has not: it is refused when the arguments are
    read.  The two sources must have one shape; the result is written
    into [dst] when there is one of that shape, and into a new array
    otherwise; the array that holds the result is returned. *)
Definition cv2_addWeighted (src1 : ndarray) (alpha : Qc) (src2 : ndarray)
    (beta gamma : Qc) (dst : option ndarray) : M ndarray :=
  if match dst with Some d => reversed (view d) | None => false end
  then raise (cv2_error "addWeighted: layout of the output array dst")
  else
    i1 <- read src1 ;;
    i2 <- read src2 ;;
    if negb (bool_decide_shape (shape i1) (shape i2))
    then raise (cv2_error "addWeighted: sizes of input arguments do not match")
    else
      let out := weighted i1 alpha i2 beta gamma in
      match dst with
      | Some d =>
          id <- read d ;;
          if bool_decide_shape (shape id) (shape i1)
          then (store d out ;;; ret d)
          else alloc out
      | None => alloc out
      end.

(** [cv2.warpAffine(src, M, (width, height), borderMode=...)]: a new
    array of [height] rows and [width] columns, with the channels of
    [src]. *)
Definition cv2_warpAffine (src : ndarray) (m : affine) (dsize : nat * nat) : M ndarray :=
  img <- read src ;;
  if ((shape img).1.1 =? 0)%nat || ((shape img).1.2 =? 0)%nat
     || (dsize.1 =? 0)%nat || (dsize.2 =? 0)%nat
  then raise (cv2_error "warpAffine: empty array")
  else alloc (build dsize.2 dsize.1 (shape img).2 (remap img m)).

(** [cv2.resize(src, (width, height), ...)]: a new array of [height] rows
    and [width] columns, with the channels of [src]. *)
Definition cv2_resize (src : ndarray) (dsize : nat * nat) : M ndarray :=
  img <- read src ;;
  if ((shape img).1.1 =? 0)%nat || ((shape img).1.2 =? 0)%nat
     || (dsize.1 =? 0)%nat || (dsize.2 =? 0)%nat
  then raise (cv2_error "resize: empty array")
  else alloc (build dsize.2 dsize.1 (shape img).2 (resample img dsize.1 dsize.2)).

Inductive color_code : Type := COLOR_RGB2HSV | COLOR_HSV2RGB.

Definition triple (t : chan * chan * chan) : list chan := [t.1.1; t.1.2; t.2].

Definition convert_pixel (code : color_code) (px : list chan) : list chan :=
  match code, px with
  | COLOR_RGB2HSV, [r; g; b] => triple (rgb2hsv (r, g, b))
  | COLOR_RGB2HSV, [r; g; b; _] => triple (rgb2hsv (r, g, b))
  | COLOR_HSV2RGB, [h; s; v] => triple (hsv2rgb (h, s, v))
  | _, _ => px
  end.

Definition convert (code : color_code) (img : image) : image :=
  (fun row : list (list chan) => convert_pixel code <$> row) <$> img.

Definition accepts (code : color_code) (channels : nat) : bool :=
  match code with
  | COLOR_RGB2HSV => (channels =? 3)%nat || (channels =? 4)%nat
  | COLOR_HSV2RGB => (channels =? 3)%nat
  end.

(** [cv2.cvtColor(src, code)]: a new array of the size of [src] with
    three channels; sources of another depth are refused. *)
Definition cv2_cvtColor (src : ndarray) (code : color_code) : M ndarray :=
  img <- read src ;;
  if accepts code (shape img).2
  then alloc (convert code img)
  else raise (cv2_error "cvtColor: invalid number of channels in input image").

(** [plt.imread(path)]: a new array, or what the loader raises. *)
Definition plt_imread (path : string) : M ndarray :=
  fun w => match files w path with
           | Ok img => alloc img w
           | Raise e => (Raise e, w)
           end.

(** [np.array(list_of_arrays)] copies what the handles show into one
    array; arrays that differ in shape are refused. *)
Definition np_array (l : list ndarray) : M (list image) :=
  fun w =>
    let imgs := deref (heap w) <$> l in
    if forallb (fun i : list (list (list chan)) =>
                  bool_decide_shape (shape i) (shape (hd [] imgs))) imgs
    then (Ok imgs, w)
    else (Raise (ValueError "setting an array element with a sequence"), w).

(** [x / y] on floats. *)
Definition py_div (x y : Qc) : M Qc :=
  if Qc_eqb y (of_int 0) then raise ZeroDivisionError else ret (x / y)%Qc.

(** ** The driving log *)

Record LogRow : Type := {
  center : string; left : string; right : string;
  steering : Qc; throttle : Qc; brake : Qc; speed : Qc
}.

Inductive cell : Type :=
  | CStr (s : string)
  | CNum (x : Qc).

(** The cells of a row, in the order of [COLUMNS]. *)
Definition cells (r : LogRow) : list cell :=
  [CStr (center r); CStr (left r); CStr (right r);
   CNum (steering r); CNum (throttle r); CNum (brake r); CNum (speed r)].

(** [csv.iloc[index]]: a negative index counts from the end. *)
Definition iloc (csv : list LogRow) (index : Z) : M LogRow :=
  let n := Z.of_nat (length csv) in
  let i := if index <? 0 then index + n else index in
  if (0 <=? i) && (i <? n)
  then match csv !! Z.to_nat i with
       | Some r => ret r
       | None => raise IndexError
       end
  else raise IndexError.

(** [row[k]] by position. *)
Definition row_getitem (r : LogRow) (k : nat) : M cell :=
  match cells r !! k with
  | Some c => ret c
  | None => raise IndexError
  end.

(** [str.isspace] on an ASCII character: space, tab to carriage return,
    and the four separators 28 to 31. *)
Definition is_space (c : ascii) : bool :=
  let n := nat_of_ascii c in
  (n =? 32)%nat || ((9 <=? n)%nat && (n <=? 13)%nat)
  || ((28 <=? n)%nat && (n <=? 31)%nat).

Fixpoint lstrip (s : string) : string :=
  match s with
  | String c s' => if is_space c then lstrip s' else s
  | EmptyString => EmptyString
  end.

Fixpoint rstrip (s : string) : string :=
  match s with
  | String c s' =>
      match rstrip s' with
      | EmptyString => if is_space c then EmptyString else String c EmptyString
      | t => String c t
      end
  | EmptyString => EmptyString
  end.

(** [s.strip()] *)
Definition strip (s : string) : string := rstrip (lstrip s).

Definition cell_strip (c : cell) : M string :=
  match c with
  | CStr s => ret (strip s)
  | CNum _ => raise (AttributeError "'float' object has no attribute 'strip'")
  end.

Definition cell_float (c : cell) : M Qc :=
  match c with
  | CNum x => ret x
  | CStr _ => raise (TypeError "must be str, not float")
  end.

(** ** The functions of the module *)

(** lines 22-29 *)
Definition random_flip (image : ndarray) (steering_angle : Qc) (flipping_prob : Qc)
    : M (ndarray * Qc) :=
  u <- random_random ;;
  if Qc_ltb u flipping_prob
  then ret (np_fliplr image, (of_int (-1) * steering_angle)%Qc)
  else ret (image, steering_angle).

(** lines 46-73.  The halves [max_x / 2] and [max_y / 2] are the exact
    quotients, as the doubles of Python are for bounds below 2^53. *)
Definition get_shadow_poly (max_x max_y : Z) : M (list (Z * Z)) :=
  horizontal <- np_random_uniform (of_int 0) (of_int 1) ;;
  if Qc_ltb horizontal (fl 0.5) then
    x1 <- random_randint (of_int 0) (of_int max_x / of_int 2) ;;
    let y1 := 0 in
    x2 <- random_randint (of_int max_x / of_int 2) (of_int max_x) ;;
    let y2 := 0 in
    x3 <- random_randint (of_int max_x / of_int 2) (of_int max_x) ;;
    let y3 := max_y in
    x4 <- random_randint (of_int 0) (of_int max_x / of_int 2) ;;
    let y4 := max_y in
    ret [(x1, y1); (x2, y2); (x3, y3); (x4, y4)]
  else
    let x1 := 0 in
    y1 <- random_randint (of_int 0) (of_int max_y / of_int 2) ;;
    let x2 := 0 in
    y2 <- random_randint (of_int max_y / of_int 2) (of_int max_y) ;;
    let x3 := max_x in
    y3 <- random_randint (of_int max_y / of_int 2) (of_int max_y) ;;
    let x4 := max_x in
    y4 <- random_randint (of_int 0) (of_int max_y / of_int 2) ;;
    ret [(x1, y1); (x2, y2); (x3, y3); (x4, y4)].

(** lines 31-44 *)
Definition random_shadows (image : ndarray) : M ndarray :=
  shadows <- ndarray_copy image ;;
  sh <- read shadows ;;
  let image_area := ((shape sh).1.1 * (shape sh).1.2)%nat in
  poly <- get_shadow_poly (Z.of_nat (shape sh).1.1) (Z.of_nat (shape sh).1.2) ;;
  cv2_fillPoly shadows poly (-1) ;;;
  alpha <- np_random_uniform (fl 0.6) (fl 0.9) ;;
  cv2_addWeighted shadows alpha image (of_int 1 - alpha) (of_int 0) (Some image).

(** lines 75-91 *)
Definition random_shear (image : ndarray) (steering_angle : Qc) (shear_range : Z)
    : M (ndarray * Qc) :=
  img <- read image ;;
  let rows := (shape img).1.1 in
  let cols := (shape img).1.2 in
  let ch := (shape img).2 in
  let frows := of_int (Z.of_nat rows) in
  let fcols := of_int (Z.of_nat cols) in
  dx <- np_random_randint (- shear_range) (shear_range + 1) ;;
  let random_point := (fcols / of_int 2 + of_int dx, frows / of_int 2)%Qc in
  let pts1 := [(of_int 0, frows); (fcols, frows);
               (fcols / of_int 2, frows / of_int 2)%Qc] in
  let pts2 := [(of_int 0, frows); (fcols, frows); random_point] in
  q <- py_div (of_int dx) (frows / of_int 2) ;;
  let dsteering := (q * of_int 360 / (of_int 2 * np_pi * fl 25.0) / fl 6.0)%Qc in
  let m := getAffineTransform pts1 pts2 in
  image <- cv2_warpAffine image m (cols, rows) ;;
  let steering_angle := (steering_angle + dsteering)%Qc in
  ret (image, steering_angle).

(** lines 93-102 *)
Definition crop (image : ndarray) : M ndarray :=
  img <- read image ;;
  let shape := shape img in
  let cropped := getitem_window image HORIZON BONNET 0 shape.1.2 in
  ret cropped.

(** lines 104-105; [resize_dim] is (width, height) *)
Definition resize (image : ndarray) (resize_dim : nat * nat) : M ndarray :=
  cv2_resize image resize_dim.

(** lines 107-116 *)
Definition random_brightness (image : ndarray) (median dev : Qc) : M ndarray :=
  hsv <- cv2_cvtColor image COLOR_RGB2HSV ;;
  u <- np_random_uniform (fl (-1.0)) (fl 1.0) ;;
  let random_bright := (median + dev * u)%Qc in
  setitem_channel hsv 2 (fun v => scale v random_bright) ;;;
  rgb <- cv2_cvtColor hsv COLOR_HSV2RGB ;;
  ret rgb.

(** lines 118-129 *)
Definition generate_new_image (image : ndarray) (steering_angle : Qc)
    (do_shear_prob : Qc) : M (ndarray * Qc) :=
  u <- random_random ;;
  if Qc_ltb u do_shear_prob
  then random_shear image steering_angle 200
  else ret (image, steering_angle).

(** lines 132-147 *)
Definition get_random_camera_data (csv : list LogRow) (index : Z) : M (string * Qc) :=
  rnd <- np_random_randint 0 3 ;;
  row <- iloc csv index ;;
  c <- row_getitem row (list_index "center" COLUMNS + Z.to_nat rnd) ;;
  img <- cell_strip c ;;
  row <- iloc csv index ;;
  c <- row_getitem row (list_index "steering" COLUMNS) ;;
  angle <- cell_float c ;;
  let angle :=
    if rnd =? Z.of_nat (list_index "left" COLUMNS)
    then (angle + STEERING_COEFFICIENT)%Qc
    else if rnd =? Z.of_nat (list_index "right" COLUMNS)
    then (angle - STEERING_COEFFICIENT)%Qc
    else angle in
  ret (img, angle).

(** lines 149-160; the loop of lines 156-158 *)
Fixpoint next_batch_loop (samples : list LogRow) (random_rows : list Z)
    (batch : list (string * Qc)) : M (list (string * Qc)) :=
  match random_rows with
  | [] => ret batch
  | index :: random_rows' =>
      data <- get_random_camera_data samples index ;;
      next_batch_loop samples random_rows' (batch ++ [data])
  end.

Definition next_batch (samples : list LogRow) (batch_size : nat)
    : M (list (string * Qc)) :=
  random_rows <- np_random_randint_n 0 (Z.of_nat (length samples)) batch_size ;;
  next_batch_loop samples random_rows [].

(** The [dsize] argument of [cv2.resize]: a pair of non-negative integers. *)
Definition as_dsize (v : pyobj) : M (nat * nat) :=
  match v with
  | PSeq [PInt w; PInt h] =>
      if (0 <=? w) && (0 <=? h) then ret (Z.to_nat w, Z.to_nat h)
      else raise (cv2_error "resize: negative size")
  | _ => raise (TypeError "resize: dsize is not a pair of integers")
  end.

(** lines 174-179: the body of the loop over the sampled pairs.
    [resize_dim] is neither a parameter nor a local of
    [generate_next_batch]: the name is looked up among the module's
    globals when line 179 runs. *)
Definition batch_body (img_file : string) (angle : Qc) (augment : bool)
    : M (ndarray * Qc) :=
  image <- plt_imread img_file ;;
  if augment
  then generate_new_image image angle (fl 0.5)
  else
    image <- crop image ;;
    resize_dim <- load_global "resize_dim" ;;
    dsize <- as_dsize resize_dim ;;
    image <- resize image dsize ;;
    ret (image, angle).

(** lines 173-181 *)
Fixpoint batch_loop (images : list (string * Qc)) (augment : bool)
    (X_batch : list ndarray) (y_batch : list Qc) : M (list ndarray * list Qc) :=
  match images with
  | [] => ret (X_batch, y_batch)
  | (img_file, angle) :: images' =>
      r <- batch_body img_file angle augment ;;
      batch_loop images' augment (X_batch ++ [r.1]) (y_batch ++ [r.2])
  end.

(** lines 170-183: one turn of the [while True] loop, up to its [yield]. *)
Definition batch_iteration (samples : list LogRow) (batch_size : nat)
    (augment : bool) : M (list image * list Qc) :=
  images <- next_batch samples batch_size ;;
  r <- batch_loop images augment [] [] ;;
  X <- np_array r.1 ;;
  ret (X, r.2).

(** The generator object that [generate_next_batch(...)] returns: its
    arguments, and whether an exception has ended it. *)
Record generator : Type := {
  g_samples : list LogRow;
  g_batch_size : nat;
  g_augment : bool;
  g_finished : bool
}.

(** lines 162-183 *)
Definition generate_next_batch (samples : list LogRow) (batch_size : nat)
    (augment : bool) : generator :=
  {| g_samples := samples; g_batch_size := batch_size;
     g_augment := augment; g_finished := false |}.

(** The generator, once an exception has left it. *)
Definition finished (g : generator) : generator :=
  {| g_samples := g_samples g; g_batch_size := g_batch_size g;
     g_augment := g_augment g; g_finished := true |}.

(** [next(g)]: run to the next [yield]; an exception that escapes the body
    ends the generator. *)
Definition next (g : generator) (w : world)
    : result (list image * list Qc) * generator * world :=
  if g_finished g then (Raise StopIteration, g, w)
  else match batch_iteration (g_samples g) (g_batch_size g) (g_augment g) w with
       | (Ok b, w') => (Ok b, g, w')
       | (Raise e, w') => (Raise e, finished g, w')
       end.

(** The names that helper.py binds at module level: its imports, its
    constants and its functions. *)
Definition helper_globals : gmap string pyobj :=
  list_to_map
    ([("cv2", PObject "module"); ("plt", PObject "module");
      ("np", PObject "module"); ("scipy", PObject "module");
      ("random", PObject "module"); ("os", PObject "module");
      ("rotate", PObject "function"); ("bernoulli", PObject "object");
      ("COLUMNS", PSeq (PStr <$> COLUMNS));
      ("HORIZON", PInt (Z.of_nat HORIZON)); ("BONNET", PInt (Z.of_nat BONNET));
      ("offset", PFloat offset); ("dist", PFloat dist);
      ("STEERING_COEFFICIENT", PFloat STEERING_COEFFICIENT);
      ("random_flip", PObject "function"); ("random_shadows", PObject "function");
      ("get_shadow_poly", PObject "function"); ("random_shear", PObject "function");
      ("crop", PObject "function"); ("resize", PObject "function");
      ("random_brightness", PObject "function");
      ("generate_new_image", PObject "function");
      ("get_random_camera_data", PObject "function");
      ("next_batch", PObject "function");
      ("generate_next_batch", PObject "function")]%string).

(** ** Names for what the properties speak of *)

(** The offset that [random_shear] draws in the state [w]. *)
Definition shear_dx (shear_range : Z) (w : world) : Z :=
  (- shear_range + np_rng w 0%nat mod (shear_range + 1 - - shear_range))%Z.

(** Does the draw of [get_shadow_poly] in [w] take the first branch? *)
Definition first_branch (w : world) : bool :=
  Qc_ltb (of_int 0 + (of_int 1 - of_int 0) * unit_float (np_rng w 0%nat)) (fl 0.5).

(** The state after the four draws of [get_shadow_poly]. *)
Definition after_poly (w : world) : world :=
  py_advance (py_advance (py_advance (py_advance (np_advance w)))).

(** The polygon that [get_shadow_poly] builds for even bounds
    [max_x = 2 hx] and [max_y = 2 hy], from the raw draws of [w]. *)
Definition poly_of (hx hy : Z) (w : world) : list (Z * Z) :=
  let r := py_rng w in
  if Qc_ltb (of_int 0 + (of_int 1 - of_int 0) * unit_float (np_rng w 0%nat))
            (fl 0.5)
  then [(0 + r 0%nat mod (hx + 1 - 0), 0);
        (hx + r 1%nat mod (2 * hx + 1 - hx), 0);
        (hx + r 2%nat mod (2 * hx + 1 - hx), 2 * hy);
        (0 + r 3%nat mod (hx + 1 - 0), 2 * hy)]%Z
  else [(0, 0 + r 0%nat mod (hy + 1 - 0));
        (0, hy + r 1%nat mod (2 * hy + 1 - hy));
        (2 * hx, hy + r 2%nat mod (2 * hy + 1 - hy));
        (2 * hx, 0 + r 3%nat mod (hy + 1 - 0))]%Z.

(** The paths that [get_random_camera_data] can return for a row. *)
Definition camera_paths (row : LogRow) : list string :=
  [strip (center row); strip (left row); strip (right row)].

(** The pairs that [get_random_camera_data] can return for a row: each
    camera's path with the angle corrected for that camera. *)
Definition camera_pairs (row : LogRow) : list (string * Qc) :=
  [(strip (center row), steering row);
   (strip (left row), (steering row + STEERING_COEFFICIENT)%Qc);
   (strip (right row), (steering row - STEERING_COEFFICIENT)%Qc)].

(** Only the random generators moved. *)
Definition same_store (w w' : world) : Prop :=
  heap w' = heap w /\ globals w' = globals w /\ files w' = files w.

(** [c] leaves the heap as it is. *)
Definition keeps_heap {A} (c : M A) : Prop :=
  forall w : world, heap (c w).2 = heap w.

(** [c] leaves the files as they are. *)
Definition keeps_files {A} (c : M A) : Prop :=
  forall w : world, files (c w).2 = files w.

(** [c] only adds buffers: the heap it starts from is a prefix of the heap
    it ends with, whether it returns or raises. *)
Definition extends {A} (c : M A) : Prop :=
  forall w : world, heap w `prefix_of` heap (c w).2.

End Helper.

(** ** The polygon in the image

    [cv2.fillPoly] reads a point as (x, y): a column and a row.  In an
    image of [height] rows and [width] columns the left and right edges
    are x = 0 and x = width, the top and bottom edges y = 0 and
    y = height. *)
Definition in_image (height width : Z) (p : Z * Z) : bool :=
  (0 <=? p.1) && (p.1 <=? width) && (0 <=? p.2) && (p.2 <=? height).

Definition corners_with {A} (f : A -> bool) (poly : list A) : nat :=
  length (List.filter f poly).

(** Two corners on one edge and two on the opposite edge, every corner
    within the image. *)
Definition spans_image (height width : Z) (poly : list (Z * Z)) : bool :=
  forallb (in_image height width) poly
  && ((Nat.leb 2 (corners_with (fun p => p.2 =? 0) poly)
       && Nat.leb 2 (corners_with (fun p => p.2 =? height) poly))
      || (Nat.leb 2 (corners_with (fun p => p.1 =? 0) poly)
          && Nat.leb 2 (corners_with (fun p => p.1 =? width) poly))).

(** ** An instance to run the module on: 8-bit channels

    Channels are the integers 0..255.  The kernels are small stand-ins
    (nearest-neighbour sampling, grey-level colour conversion, even-odd
    polygon filling): enough to evaluate the module on concrete inputs. *)
Module Uint8.

Definition saturate (z : Z) : Z := Z.max 0 (Z.min 255 z).

Definition round_half_up (q : Qc) : Z := Qfloor (this q + (1 # 2))%Q.

(** Does the horizontal ray from (px, py) to the right cross the edge
    from [p] to [q]? *)
Definition crosses (px py : Z) (p q : Z * Z) : bool :=
  let '(x1, y1) := p in
  let '(x2, y2) := q in
  negb (Bool.eqb (py <? y1) (py <? y2))
  && (if y1 <? y2
      then (px - x1) * (y2 - y1) <=? (py - y1) * (x2 - x1)
      else (py - y1) * (x2 - x1) <=? (px - x1) * (y2 - y1)).

Fixpoint crossings (px py : Z) (first : Z * Z) (poly : list (Z * Z)) : nat :=
  match poly with
  | [] => O
  | [p] => if crosses px py p first then 1%nat else O
  | p :: (q :: _) as rest =>
      ((if crosses px py p q then 1 else 0) + crossings px py first rest)%nat
  end.

Definition inside (poly : list (Z * Z)) (x y : nat) : bool :=
  match poly with
  | [] => false
  | first :: _ => Nat.odd (crossings (Z.of_nat x) (Z.of_nat y) first poly)
  end.

Definition at_ (img : list (list (list Z))) (i j k : nat) : Z :=
  default 0 (default [] (default [] (img !! i) !! j) !! k).

#[export] Instance kernels : Cv2 := {|
  chan := Z;
  scalar := saturate;
  scale v q := saturate (Qfloor (this (of_int v * q)%Qc));
  blend a alpha b beta gamma :=
    saturate (round_half_up (of_int a * alpha + of_int b * beta + gamma)%Qc);
  rgb2hsv '(r, g, b) := (0, 0, Z.max r (Z.max g b));
  hsv2rgb '(h, s, v) := (v, v, v);
  in_poly := inside;
  affine := list (Qc * Qc) * list (Qc * Qc);
  getAffineTransform pts1 pts2 := (pts1, pts2);
  remap img m i j k :=
    at_ img (Nat.min i (length img - 1)) (Nat.min j (length (hd [] img) - 1)) k;
  resample img w h i j k :=
    at_ img (i * length img / h) (j * length (hd [] img) / w) k
|}.

(** A constant image. *)
Definition solid (rows cols : nat) (v : Z) : list (list (list Z)) :=
  replicate rows (replicate cols [v; v; v]).

Definition a_row : LogRow :=
  {| center := " IMG/center_1.jpg"; left := " IMG/left_1.jpg";
     right := " IMG/right_1.jpg ";
     steering := fl 0.1; throttle := fl 0.5; brake := fl 0; speed := fl 30 |}.

(** A state with the given heap and raw draws, the globals of helper.py,
    and a loader that knows the three files of [a_row]. *)
Definition world_of (h : list (list (list (list Z)))) (py np : nat -> Z) : world :=
  {| heap := h;
     globals := helper_globals;
     py_rng := py; np_rng := np;
     files := fun path =>
       if bool_decide (path ∈ ["IMG/center_1.jpg"; "IMG/left_1.jpg";
                                "IMG/right_1.jpg"]%string)
       then Ok (solid 4 6 100) else Raise (IOError path) |}.

(** The same with one 4 x 6 image, in buffer 0. *)
Definition a_world (py np : nat -> Z) : world := world_of [solid 4 6 100] py np.

Definition buf0 : ndarray := {| base := 0; view := [] |}.

(** Raw draws. *)
Definition zeros : nat -> Z := fun _ => 0%Z.

(** A 2 x 2 image of four channels. *)
Definition rgba : list (list (list Z)) :=
  replicate 2 (replicate 2 [10; 20; 30; 255]).

(** A state whose globals bind [resize_dim] to (64, 32) and whose loader
    gives a 70 x 4 image for every path. *)
Definition bound_world (py np : nat -> Z) : world :=
  {| heap := [];
     globals := <["resize_dim"%string := PSeq [PInt 64; PInt 32]]> helper_globals;
     py_rng := py; np_rng := np;
     files := fun _ => Ok (solid 70 4 9) |}.

(** A row whose files the loader does not know. *)
Definition lost_row : LogRow :=
  {| center := "IMG/lost.jpg"; left := "IMG/lost.jpg"; right := "IMG/lost.jpg";
     steering := fl 0.1; throttle := fl 0.5; brake := fl 0; speed := fl 30 |}.

End Uint8.

(** * Properties *)

Section Properties.
Context `{K : Cv2}.

Local Open Scope Qc_scope.

(** ** Arithmetic of the float model *)

Lemma Qc_closed_eq (x y : Qc) : Qeq_bool x y = true -> x = y.
Proof. intros H. apply Qc_is_canon. now apply Qeq_bool_eq. Qed.

Lemma fl_25_neq0 : fl 25.0 <> 0.
Proof. intros H. apply (f_equal this) in H. discriminate H. Qed.

Lemma fl_6_neq0 : fl 6.0 <> 0.
Proof. intros H. apply (f_equal this) in H. discriminate H. Qed.

Lemma np_pi_neq0 : np_pi <> 0.
Proof. intros H. apply (f_equal this) in H. discriminate H. Qed.

Lemma of_int_2_neq0 : of_int 2 <> 0.
Proof. intros H. apply (f_equal this) in H. discriminate H. Qed.

Lemma of_int_m1 (x : Qc) : of_int (-1) * x = - x.
Proof. change (of_int (-1)) with (- (1))%Qc. ring. Qed.

(** ** Running the draws *)

Lemma np_random_randint_run (low high : Z) (w : world) :
  (low < high)%Z ->
  np_random_randint low high w
  = (Ok (low + np_rng w 0%nat mod (high - low))%Z, np_advance w).
Proof.
  intros H. unfold np_random_randint.
  destruct (Z.leb_spec high low); [lia | reflexivity].
Qed.

Lemma iloc_run (csv : list LogRow) (index : Z) (row : LogRow) (w : world) :
  (0 <= index)%Z -> csv !! Z.to_nat index = Some row ->
  iloc csv index w = (Ok row, w).
Proof.
  intros H0 Hrow. unfold iloc.
  apply lookup_lt_Some in Hrow as Hlt.
  destruct (Z.ltb_spec index 0); [lia |].
  destruct (Z.leb_spec 0 index); [| lia].
  destruct (Z.ltb_spec index (Z.of_nat (length csv))); [| lia].
  simpl. now rewrite Hrow.
Qed.

(** What [get_random_camera_data] returns for each draw. *)
Lemma get_random_camera_data_run
    (csv : list LogRow) (index : Z) (row : LogRow) (w : world) :
  (0 <= index)%Z -> csv !! Z.to_nat index = Some row ->
  let rnd := (np_rng w 0%nat mod 3)%Z in
  get_random_camera_data csv index w
  = (Ok (if (rnd =? 0)%Z then (strip (center row), steering row)
         else if (rnd =? 1)%Z
         then (strip (left row), steering row + STEERING_COEFFICIENT)
         else (strip (right row), steering row - STEERING_COEFFICIENT)),
     np_advance w).
Proof.
  intros H0 Hrow rnd.
  unfold get_random_camera_data, bind.
  rewrite np_random_randint_run by lia.
  rewrite !(iloc_run csv index row) by assumption.
  change (0 + np_rng w 0%nat mod (3 - 0))%Z with rnd.
  assert (Hr : (rnd = 0 \/ rnd = 1 \/ rnd = 2)%Z).
  { pose proof (Z.mod_pos_bound (np_rng w 0%nat) 3 eq_refl). subst rnd. lia. }
  destruct Hr as [-> | [-> | ->]];
    (change (Z.to_nat 0) with 0%nat || change (Z.to_nat 1) with 1%nat
     || change (Z.to_nat 2) with 2%nat);
    cbn; rewrite (iloc_run csv index row) by assumption; reflexivity.
Qed.

(** C1.  Camera selection: on a row with steering angle theta, the draw 0
    (center) gives the center path and theta, the draw 1 (left) the left
    path and theta + STEERING_COEFFICIENT, the draw 2 (right) the right
    path and theta - STEERING_COEFFICIENT; paths come back stripped of
    surrounding whitespace.  STEERING_COEFFICIENT is
    (1.0/15.0) * (360/(2 pi)) / 25.0, which is 0.1528 to four decimals. *)
Theorem get_random_camera_data_spec
    (csv : list LogRow) (index : Z) (row : LogRow) (w : world) :
  (0 <= index)%Z -> csv !! Z.to_nat index = Some row ->
  let rnd := (np_rng w 0%nat mod 3)%Z in
  get_random_camera_data csv index w
  = (Ok (if (rnd =? 0)%Z then (strip (center row), steering row)
         else if (rnd =? 1)%Z
         then (strip (left row), steering row + STEERING_COEFFICIENT)
         else (strip (right row), steering row - STEERING_COEFFICIENT)),
     np_advance w)
  /\ STEERING_COEFFICIENT
     = fl 1.0 / fl 15.0 * (of_int 360 / (of_int 2 * np_pi)) / fl 25.0
  /\ fl 0.15275 < STEERING_COEFFICIENT < fl 0.15285.
Proof.
  intros H0 Hrow rnd. split; [| split; [| split]].
  - now apply get_random_camera_data_run.
  - apply Qc_closed_eq. vm_compute. reflexivity.
  - vm_compute. reflexivity.
  - vm_compute. reflexivity.
Qed.

(** ** Handles and the heap *)

Lemma deref_snoc (h : list image) (a : ndarray) (op : vop) :
  deref h {| base := base a; view := view a ++ [op] |} = apply_vop op (deref h a).
Proof. unfold deref. simpl. now rewrite foldl_snoc. Qed.

Lemma apply_vop_nil (op : vop) : apply_vop op [] = [].
Proof.
  destruct op; simpl; [reflexivity |].
  unfold slice. now rewrite drop_nil, take_nil.
Qed.

Lemma foldl_apply_vop_nil (ops : list vop) :
  foldl (fun img op => apply_vop op img) [] ops = [].
Proof. induction ops as [| op ops IH]; simpl; [| rewrite apply_vop_nil]; auto. Qed.

(** A handle that shows something reads a buffer of the heap. *)
Lemma deref_valid (h : list image) (a : ndarray) :
  deref h a <> [] -> (base a < length h)%nat.
Proof.
  intros Hne. destruct (h !! base a) as [b |] eqn:E.
  - now apply lookup_lt_Some in E.
  - exfalso. apply Hne. unfold deref. rewrite E. apply foldl_apply_vop_nil.
Qed.

Lemma deref_app (h new : list image) (a : ndarray) :
  (base a < length h)%nat -> deref (h ++ new) a = deref h a.
Proof. intros Hlt. unfold deref. now rewrite lookup_app_l. Qed.

Lemma deref_fresh (h : list image) (img : image) :
  deref (h ++ [img]) {| base := length h; view := [] |} = img.
Proof. unfold deref. simpl. now rewrite list_lookup_middle. Qed.

Lemma deref_fresh2 (h : list image) (a b : image) :
  deref (h ++ [a; b]) {| base := S (length h); view := [] |} = b.
Proof.
  unfold deref. cbn [base view foldl].
  rewrite lookup_app_r by lia.
  replace (S (length h) - length h)%nat with 1%nat by lia. reflexivity.
Qed.

(** ** Flip *)

Lemma random_flip_run
    (image : ndarray) (steering_angle flipping_prob : Qc) (w : world) :
  random_flip image steering_angle flipping_prob w
  = (Ok (if Qc_ltb (unit_float (py_rng w 0%nat)) flipping_prob
         then (np_fliplr image, - steering_angle)
         else (image, steering_angle)),
     py_advance w).
Proof.
  unfold random_flip, random_random, bind, py_raw, ret.
  destruct (Qc_ltb _ _); [| reflexivity].
  now rewrite of_int_m1.
Qed.

(** C6.  With the draw below [flipping_prob], [random_flip] returns the
    horizontal mirror of the image (pixel j of every row is pixel
    W-1-j of the input row) with the angle negated; with the draw not
    below it, the image and the angle as they came. *)
Theorem random_flip_spec
    (image : ndarray) (steering_angle flipping_prob : Qc) (w : world) :
  random_flip image steering_angle flipping_prob w
  = (Ok (if Qc_ltb (unit_float (py_rng w 0%nat)) flipping_prob
         then (np_fliplr image, - steering_angle)
         else (image, steering_angle)),
     py_advance w)
  /\ deref (heap (py_advance w)) image = deref (heap w) image
  /\ forall (i j : nat) (row : list (list chan)),
       deref (heap w) image !! i = Some row -> (j < length row)%nat ->
       deref (heap (py_advance w)) (np_fliplr image) !! i ≫= (.!! j)
       = row !! (length row - 1 - j)%nat.
Proof.
  split; [| split].
  - apply random_flip_run.
  - reflexivity.
  - intros i j row Hrow Hj. unfold np_fliplr. rewrite deref_snoc.
    change (heap (py_advance w)) with (heap w). simpl.
    rewrite list_lookup_fmap, Hrow. simpl.
    rewrite reverse_lookup by assumption. f_equal. lia.
Qed.

(** ** Crop *)

Lemma slice_all {A} (l : list A) (n : nat) : length l = n -> slice 0 n l = l.
Proof.
  intros <-. unfold slice. rewrite Nat.sub_0_r, drop_0. apply firstn_all.
Qed.

Lemma rectangular_rows (img : image) (row : list (list chan)) :
  rectangular img -> row ∈ img -> length row = (shape img).1.2.
Proof.
  unfold rectangular. rewrite Forall_forall. intros H Hin. now apply H.
Qed.

(** C7.  On an image of at least 136 rows, [crop] returns the rows 60 to
    135, each with all its columns and channels; it draws nothing, leaves
    the state as it is, and depends on the heap alone. *)
Theorem crop_spec (image : ndarray) (w : world) :
  let img := deref (heap w) image in
  rectangular img -> (136 <= length img)%nat ->
  exists cropped : ndarray,
    crop image w = (Ok cropped, w)
    /\ (forall w2 : world, heap w2 = heap w -> (crop image w2).1 = Ok cropped)
    /\ length (deref (heap w) cropped) = 76%nat
    /\ forall i : nat, (i < 76)%nat ->
         deref (heap w) cropped !! i = img !! (60 + i)%nat.
Proof.
  intros img Hrect Hlen.
  exists (getitem_window image HORIZON BONNET 0 (shape img).1.2).
  assert (Hd : deref (heap w) (getitem_window image HORIZON BONNET 0 (shape img).1.2)
               = take 76 (drop 60 img)).
  { unfold getitem_window. rewrite deref_snoc. fold img. simpl.
    unfold slice at 2. change (BONNET - HORIZON)%nat with 76%nat.
    change HORIZON with 60%nat.
    apply list_eq. intros i. rewrite list_lookup_fmap.
    destruct (take 76 (drop 60 img) !! i) as [row |] eqn:E; [| reflexivity].
    simpl. f_equal. apply slice_all.
    apply (rectangular_rows img row Hrect).
    apply list_elem_of_lookup_2 in E.
    now apply subseteq_take, subseteq_drop in E. }
  split; [reflexivity |]. split; [| split].
  - intros w2 Hw2. unfold crop, bind, read, ret. simpl. now rewrite Hw2.
  - rewrite Hd, length_take, length_drop. lia.
  - intros i Hi. rewrite Hd, lookup_take_lt by assumption. now rewrite lookup_drop.
Qed.

(** ** Shear *)

Lemma of_int_neq0 (n : Z) : n <> 0%Z -> of_int n <> 0.
Proof.
  intros Hn H. apply (f_equal this) in H. unfold of_int in H. simpl in H.
  assert (E : (Qred (inject_Z n) == 0)%Q) by now rewrite H.
  rewrite Qred_correct in E. unfold Qeq in E. simpl in E. lia.
Qed.

Lemma half_neq0 (x : Qc) : x <> 0 -> x / of_int 2 <> 0.
Proof.
  intros Hx H. apply Hx.
  replace x with (x / of_int 2 * of_int 2) by (field; apply of_int_2_neq0).
  rewrite H. ring.
Qed.

Lemma py_div_run (x y : Qc) (w : world) :
  y <> 0 -> py_div x y w = (Ok (x / y), w).
Proof.
  intros Hy. unfold py_div.
  destruct (Qc_eqb y (of_int 0)) eqn:E; [| reflexivity].
  exfalso. apply Hy. now apply Qc_closed_eq.
Qed.

Lemma shape_build (r c k : nat) (f : nat -> nat -> nat -> chan) :
  (0 < r)%nat -> (0 < c)%nat -> shape (build r c k f) = (r, c, k).
Proof.
  intros Hr Hc. destruct r as [| r]; [lia |]. destruct c as [| c]; [lia |].
  unfold shape, build. simpl. now rewrite !length_fmap, !length_seq.
Qed.

Lemma cv2_warpAffine_run (src : ndarray) (m : affine) (cols rows : nat) (w : world) :
  let img := deref (heap w) src in
  (0 < (shape img).1.1)%nat -> (0 < (shape img).1.2)%nat ->
  (0 < cols)%nat -> (0 < rows)%nat ->
  cv2_warpAffine src m (cols, rows) w
  = (Ok {| base := length (heap w); view := [] |},
     set_heap (heap w ++ [build rows cols (shape img).2 (remap img m)]) w).
Proof.
  intros img H1 H2 H3 H4. unfold cv2_warpAffine, bind, read. fold img. simpl.
  destruct (Nat.eqb_spec (length img) 0); [simpl in H1; lia |].
  destruct (Nat.eqb_spec (length (hd [] img)) 0); [simpl in H2; lia |].
  destruct (Nat.eqb_spec cols 0); [lia |].
  destruct (Nat.eqb_spec rows 0); [lia |].
  reflexivity.
Qed.

(** Every offset of the range is drawn by some state. *)
Lemma shear_dx_onto (shear_range dx : Z) (w : world) :
  (- shear_range <= dx <= shear_range)%Z ->
  np_rng w 0%nat = (dx + shear_range)%Z -> shear_dx shear_range w = dx.
Proof.
  intros Hdx Hraw. unfold shear_dx. rewrite Hraw.
  rewrite Z.mod_small by lia. lia.
Qed.

(** What [random_shear] does on a raster, step by step. *)
Lemma random_shear_run
    (image : ndarray) (steering_angle : Qc) (shear_range : Z) (w : world) :
  let img := deref (heap w) image in
  let rows := (shape img).1.1 in
  let cols := (shape img).1.2 in
  let dx := shear_dx shear_range w in
  (0 < rows)%nat -> (0 < cols)%nat -> (0 <= shear_range)%Z ->
  random_shear image steering_angle shear_range w
  = (Ok ({| base := length (heap w); view := [] |},
         steering_angle
         + of_int dx / (of_int (Z.of_nat rows) / of_int 2) * of_int 360
           / (of_int 2 * np_pi * fl 25.0) / fl 6.0),
     set_heap
       (heap w ++
        [build rows cols (shape img).2
           (remap img
              (getAffineTransform
                 [(of_int 0, of_int (Z.of_nat rows));
                  (of_int (Z.of_nat cols), of_int (Z.of_nat rows));
                  (of_int (Z.of_nat cols) / of_int 2,
                   of_int (Z.of_nat rows) / of_int 2)]
                 [(of_int 0, of_int (Z.of_nat rows));
                  (of_int (Z.of_nat cols), of_int (Z.of_nat rows));
                  (of_int (Z.of_nat cols) / of_int 2 + of_int dx,
                   of_int (Z.of_nat rows) / of_int 2)]))])
       (np_advance w)).
Proof.
  intros img rows cols dx Hrows Hcols Hsr.
  unfold random_shear. unfold bind at 1. unfold read at 1. fold img.
  unfold bind at 1. rewrite np_random_randint_run by lia.
  fold (shear_dx shear_range w). fold dx. fold rows. fold cols.
  unfold bind at 1. rewrite py_div_run
    by (apply half_neq0, of_int_neq0; unfold rows; lia).
  unfold bind at 1.
  rewrite cv2_warpAffine_run by (simpl; fold img; assumption).
  reflexivity.
Qed.

(** C3.  On an image of height H >= 1 (and of at least one column, as
    OpenCV asks of what it warps), for a range that NumPy draws from (a
    range of 64-bit integers), with the drawn offset dx (an integer of
    [-shear_range, shear_range]), [random_shear] returns the angle
    theta + dx / (H/2) * 360 / (2 pi 25.0) / 6.0; for dx = 0 that is
    theta. *)
Theorem random_shear_angle
    (image : ndarray) (steering_angle : Qc) (shear_range : Z) (w : world) :
  let img := deref (heap w) image in
  let H := (shape img).1.1 in
  let dx := shear_dx shear_range w in
  (1 <= H)%nat -> (0 < (shape img).1.2)%nat ->
  (0 <= shear_range < 2 ^ 63 - 1)%Z ->
  (- shear_range <= dx <= shear_range)%Z
  /\ (exists sheared : ndarray,
        (random_shear image steering_angle shear_range w).1
        = Ok (sheared,
              steering_angle
              + of_int dx / (of_int (Z.of_nat H) / of_int 2) * of_int 360
                / (of_int 2 * np_pi * fl 25.0) / fl 6.0))
  /\ (dx = 0%Z ->
      exists sheared : ndarray,
        (random_shear image steering_angle shear_range w).1
        = Ok (sheared, steering_angle)).
Proof.
  intros img H dx HH Hcols [Hsr _].
  rewrite random_shear_run by (assumption || (fold img; fold H; lia)).
  fold img H dx.
  split; [| split].
  - unfold dx, shear_dx.
    pose proof (Z.mod_pos_bound (np_rng w 0%nat)
                  (shear_range + 1 - - shear_range)). lia.
  - eexists. reflexivity.
  - intros ->. eexists. simpl. do 2 f_equal.
    change (of_int 0) with 0.
    field. repeat split;
      auto using fl_6_neq0, fl_25_neq0, np_pi_neq0, of_int_2_neq0.
    apply of_int_neq0. lia.
Qed.

(** ** Shapes *)

Lemma rectangular_pixels (img : image) (row : list (list chan)) (px : list chan) :
  rectangular img -> row ∈ img -> px ∈ row -> length px = (shape img).2.
Proof.
  unfold rectangular. rewrite Forall_forall. intros H Hrow Hpx.
  destruct (H row Hrow) as [_ Hp]. rewrite Forall_forall in Hp. now apply Hp.
Qed.

Lemma shape_fliplr (img : image) :
  rectangular img -> shape (reverse <$> img) = shape img.
Proof.
  intros Hrect. destruct img as [| row img']; [reflexivity |].
  unfold shape. simpl. rewrite length_fmap, length_reverse. f_equal.
  destruct (reverse row) as [| px tl] eqn:E.
  - apply (f_equal length) in E. rewrite length_reverse in E.
    now destruct row.
  - assert (Hin : px ∈ row).
    { apply elem_of_reverse. rewrite E. apply list_elem_of_here. }
    simpl. rewrite (rectangular_pixels (row :: img') row px Hrect); auto.
    apply list_elem_of_here.
Qed.

Lemma shape_convert (code : color_code) (img : image) :
  (shape img).2 = 3%nat -> shape (convert code img) = shape img.
Proof.
  intros H3. destruct img as [| [| px row] img']; try discriminate H3.
  unfold shape in H3. simpl in H3.
  destruct px as [| a [| b [| c [| d px]]]]; try discriminate H3.
  unfold shape, convert. rewrite !fmap_cons, !length_cons, !length_fmap.
  cbn [hd]. rewrite !length_cons, length_fmap. now destruct code.
Qed.

Lemma shape_map_channel (k : nat) (f : chan -> chan) (img : image) :
  shape (map_channel k f img) = shape img.
Proof.
  destruct img as [| [| px row] img']; try reflexivity;
    unfold shape, map_channel; rewrite !fmap_cons || rewrite fmap_cons;
    rewrite !length_cons, ?length_fmap; cbn [hd]; try reflexivity.
  now rewrite !length_cons, length_fmap, length_alter.
Qed.

Lemma cv2_cvtColor_run (src : ndarray) (code : color_code) (w : world) :
  (shape (deref (heap w) src)).2 = 3%nat ->
  cv2_cvtColor src code w
  = (Ok {| base := length (heap w); view := [] |},
     set_heap (heap w ++ [convert code (deref (heap w) src)]) w).
Proof.
  intros H3. unfold cv2_cvtColor, bind, read. rewrite H3.
  now destruct code.
Qed.

Lemma heap_alter_fresh (h : list image) (x : image) (f : image -> image) :
  alter f (length h) (h ++ [x]) = h ++ [f x].
Proof. rewrite alter_app_r_alt by lia. now rewrite Nat.sub_diag. Qed.

(** What [random_brightness] does on a three-channel image. *)
Lemma random_brightness_run (image : ndarray) (median dev : Qc) (w : world) :
  let img := deref (heap w) image in
  let random_bright :=
    median + dev * (fl (-1.0) + (fl 1.0 - fl (-1.0)) * unit_float (np_rng w 0%nat)) in
  let hsv := map_channel 2 (fun v => scale v random_bright)
               (convert COLOR_RGB2HSV img) in
  (shape img).2 = 3%nat ->
  random_brightness image median dev w
  = (Ok {| base := S (length (heap w)); view := [] |},
     set_heap (heap w ++ [hsv; convert COLOR_HSV2RGB hsv]) (np_advance w)).
Proof.
  intros img rb hsv H3. unfold random_brightness.
  unfold bind at 1. rewrite cv2_cvtColor_run by assumption. fold img.
  unfold bind at 1, np_random_uniform, bind at 1, np_raw, ret.
  unfold bind at 1, setitem_channel, bind at 1, read, store. simpl.
  rewrite deref_fresh, heap_alter_fresh. fold rb hsv.
  unfold bind at 1. rewrite cv2_cvtColor_run; simpl.
  - rewrite deref_fresh, length_app, <- app_assoc. simpl.
    rewrite Nat.add_1_r. reflexivity.
  - rewrite deref_fresh. unfold hsv.
    change (length (hd [] (hd [] ?i))) with (shape i).2.
    now rewrite shape_map_channel, shape_convert.
Qed.

(** C10.  On a three-channel raster, [random_shear] (for a range that
    NumPy draws from: a range of 64-bit integers), [random_flip] and
    [random_brightness] each return, whatever they draw, an image of the
    rows, columns and channels of their input. *)
Theorem augmentations_keep_shape
    (image : ndarray) (steering_angle flipping_prob median dev : Qc)
    (shear_range : Z) (w : world) :
  let img := deref (heap w) image in
  rgb_raster img -> (0 <= shear_range < 2 ^ 63 - 1)%Z ->
  (exists out angle w',
      random_shear image steering_angle shear_range w = (Ok (out, angle), w')
      /\ shape (deref (heap w') out) = shape img)
  /\ (exists out angle w',
      random_flip image steering_angle flipping_prob w = (Ok (out, angle), w')
      /\ shape (deref (heap w') out) = shape img)
  /\ (exists out w',
      random_brightness image median dev w = (Ok out, w')
      /\ shape (deref (heap w') out) = shape img).
Proof.
  intros img [(Hrect & Hrows & Hcols) H3] [Hsr _]. split; [| split].
  - do 3 eexists. split.
    + apply random_shear_run; assumption.
    + cbn [heap set_heap]. rewrite deref_fresh. fold img.
      rewrite shape_build by assumption. now destruct (shape img) as [[? ?] ?].
  - pose proof (random_flip_run image steering_angle flipping_prob w) as Hrun.
    destruct (Qc_ltb (unit_float (py_rng w 0%nat)) flipping_prob);
      do 3 eexists; (split; [exact Hrun |]).
    + unfold np_fliplr. rewrite deref_snoc. simpl. now apply shape_fliplr.
    + reflexivity.
  - do 2 eexists. split.
    + apply random_brightness_run. assumption.
    + cbn [heap set_heap]. rewrite deref_fresh2.
      now rewrite shape_convert; rewrite shape_map_channel, shape_convert.
Qed.

(** ** Which buffers a call leaves alone *)

Lemma extends_ret {A} (a : A) : extends (ret a).
Proof. intros w. reflexivity. Qed.

Lemma extends_raise {A} (e : exn) : extends (raise (A := A) e).
Proof. intros w. reflexivity. Qed.

Lemma extends_bind {A B} (c : M A) (k : A -> M B) :
  extends c -> (forall a, extends (k a)) -> extends (bind c k).
Proof.
  intros Hc Hk w. unfold bind. specialize (Hc w).
  destruct (c w) as [[a | e] w1]; simpl in *; [| assumption].
  etransitivity; [exact Hc | apply Hk].
Qed.

Lemma extends_read (a : ndarray) : extends (read a).
Proof. intros w. reflexivity. Qed.

Lemma extends_alloc (img : image) : extends (alloc img).
Proof. intros w. simpl. now apply prefix_app_r. Qed.

Lemma extends_py_raw : extends py_raw.
Proof. intros w. reflexivity. Qed.

Lemma extends_np_raw : extends np_raw.
Proof. intros w. reflexivity. Qed.

Lemma extends_if {A} (b : bool) (c1 c2 : M A) :
  extends c1 -> extends c2 -> extends (if b then c1 else c2).
Proof. now destruct b. Qed.

Lemma extends_np_random_randint (low high : Z) :
  extends (np_random_randint low high).
Proof.
  unfold np_random_randint.
  apply extends_if; [apply extends_raise |].
  apply extends_bind; [apply extends_np_raw | intros; apply extends_ret].
Qed.

Lemma extends_np_random_uniform (low high : Qc) :
  extends (np_random_uniform low high).
Proof.
  apply extends_bind; [apply extends_np_raw | intros; apply extends_ret].
Qed.

Lemma extends_random_random : extends random_random.
Proof.
  apply extends_bind; [apply extends_py_raw | intros; apply extends_ret].
Qed.

Lemma extends_py_div (x y : Qc) : extends (py_div x y).
Proof.
  unfold py_div. apply extends_if; [apply extends_raise | apply extends_ret].
Qed.

Lemma extends_cv2_warpAffine (src : ndarray) (m : affine) (dsize : nat * nat) :
  extends (cv2_warpAffine src m dsize).
Proof.
  apply extends_bind; [apply extends_read | intros img].
  apply extends_if; [apply extends_raise | apply extends_alloc].
Qed.

Lemma extends_cv2_resize (src : ndarray) (dsize : nat * nat) :
  extends (cv2_resize src dsize).
Proof.
  apply extends_bind; [apply extends_read | intros img].
  apply extends_if; [apply extends_raise | apply extends_alloc].
Qed.

Lemma extends_cv2_cvtColor (src : ndarray) (code : color_code) :
  extends (cv2_cvtColor src code).
Proof.
  apply extends_bind; [apply extends_read | intros img].
  apply extends_if; [apply extends_alloc | apply extends_raise].
Qed.

Lemma extends_random_flip (image : ndarray) (steering_angle flipping_prob : Qc) :
  extends (random_flip image steering_angle flipping_prob).
Proof.
  apply extends_bind; [apply extends_random_random | intros u].
  apply extends_if; apply extends_ret.
Qed.

Lemma extends_random_shear (image : ndarray) (steering_angle : Qc) (shear_range : Z) :
  extends (random_shear image steering_angle shear_range).
Proof.
  apply extends_bind; [apply extends_read | intros img].
  apply extends_bind; [apply extends_np_random_randint | intros dx].
  apply extends_bind; [apply extends_py_div | intros q].
  apply extends_bind; [apply extends_cv2_warpAffine | intros out].
  apply extends_ret.
Qed.

Lemma extends_crop (image : ndarray) : extends (crop image).
Proof.
  apply extends_bind; [apply extends_read | intros img; apply extends_ret].
Qed.

Lemma extends_resize (image : ndarray) (resize_dim : nat * nat) :
  extends (resize image resize_dim).
Proof. apply extends_cv2_resize. Qed.

(** A store through a handle on a buffer that [w] does not have yet leaves
    the buffers of [w] alone. *)
Lemma store_fresh_prefix (h new : list image) (a : ndarray) (img : image) :
  (length h <= base a)%nat ->
  h `prefix_of` alter (fun b => write_view (view a) b img) (base a) (h ++ new).
Proof.
  intros Hge. rewrite alter_app_r_alt by assumption. now apply prefix_app_r.
Qed.

Lemma extends_random_brightness (image : ndarray) (median dev : Qc) :
  extends (random_brightness image median dev).
Proof.
  intros w. unfold random_brightness, bind at 1, cv2_cvtColor, bind at 1, read.
  destruct (accepts COLOR_RGB2HSV _); [| reflexivity].
  cbn [alloc fst snd].
  unfold bind at 1, np_random_uniform, bind at 1, np_raw, ret.
  unfold bind at 1, setitem_channel, bind at 1, read, store.
  cbn [heap set_heap np_advance fst snd].
  set (h1 := alter _ _ _).
  assert (H1 : heap w `prefix_of` h1).
  { unfold h1. apply store_fresh_prefix. simpl. lia. }
  match goal with
  | |- _ `prefix_of` heap (bind ?c ?k ?w1).2 =>
      pose proof (extends_bind c k (extends_cv2_cvtColor _ _)
                    (fun a => extends_ret a) w1) as H2
  end.
  etransitivity; [exact H1 | exact H2].
Qed.

(** C4, as the module has it.  [random_flip], [random_shear], [crop],
    [resize] and [random_brightness] leave every buffer that exists when
    they are called as it is, whatever they draw and whether they return
    or raise: the caller's image is not written to.  ([random_shadows]
    is not in the list: it writes its result into its argument.) *)
Theorem transforms_keep_buffers
    (image : ndarray) (steering_angle flipping_prob median dev : Qc)
    (shear_range : Z) (resize_dim : nat * nat) (w : world)
    (l : nat) (b : list (list (list chan))) :
  heap w !! l = Some b ->
  heap (random_flip image steering_angle flipping_prob w).2 !! l = Some b
  /\ heap (random_shear image steering_angle shear_range w).2 !! l = Some b
  /\ heap (crop image w).2 !! l = Some b
  /\ heap (resize image resize_dim w).2 !! l = Some b
  /\ heap (random_brightness image median dev w).2 !! l = Some b.
Proof.
  intros Hl.
  assert (Hp : forall h', heap w `prefix_of` h' -> h' !! l = Some b).
  { intros h' [k ->]. now apply lookup_app_l_Some. }
  repeat split; apply Hp.
  - apply extends_random_flip.
  - apply extends_random_shear.
  - apply extends_crop.
  - apply extends_resize.
  - apply extends_random_brightness.
Qed.

(** ** The batch generator *)

Lemma bind_ok_inv {A B} (c : M A) (k : A -> M B) (w w' : world) (b : B) :
  bind c k w = (Ok b, w') ->
  exists a w1, c w = (Ok a, w1) /\ k a w1 = (Ok b, w').
Proof.
  unfold bind. destruct (c w) as [[a | e] w1]; [eauto | discriminate].
Qed.

Lemma batch_loop_app (l1 l2 : list (string * Qc)) (augment : bool)
    (X : list ndarray) (y : list Qc) (w : world) :
  batch_loop (l1 ++ l2) augment X y w
  = bind (batch_loop l1 augment X y)
         (fun r => batch_loop l2 augment r.1 r.2) w.
Proof.
  revert X y w. induction l1 as [| [p a] l1 IH]; intros X y w; [reflexivity |].
  simpl. unfold bind.
  destruct (batch_body p a augment w) as [[r | e] w1]; [| reflexivity].
  now rewrite IH.
Qed.

Lemma batch_loop_length (images : list (string * Qc)) (augment : bool)
    (X X' : list ndarray) (y y' : list Qc) (w w' : world) :
  batch_loop images augment X y w = (Ok (X', y'), w') ->
  length X' = (length X + length images)%nat
  /\ length y' = (length y + length images)%nat.
Proof.
  revert X y w. induction images as [| [p a] images IH]; intros X y w H.
  - injection H as <- <- _. simpl. lia.
  - cbn [batch_loop] in H. apply bind_ok_inv in H as (r & w1 & _ & H).
    apply IH in H. rewrite !length_app in H. simpl in *. lia.
Qed.

Lemma np_random_randint_n_length (low high : Z) (size : nat)
    (rows : list Z) (w w' : world) :
  np_random_randint_n low high size w = (Ok rows, w') -> length rows = size.
Proof.
  revert rows w w'. induction size as [| n IH]; intros rows w w' H; simpl in H.
  - now injection H as <- _.
  - apply bind_ok_inv in H as (x & w1 & _ & H).
    apply bind_ok_inv in H as (xs & w2 & Hxs & H).
    injection H as <- _. simpl. f_equal. eapply IH, Hxs.
Qed.

Lemma next_batch_loop_length (samples : list LogRow) (rows : list Z)
    (batch batch' : list (string * Qc)) (w w' : world) :
  next_batch_loop samples rows batch w = (Ok batch', w') ->
  length batch' = (length batch + length rows)%nat.
Proof.
  revert batch w. induction rows as [| i rows IH]; intros batch w H; simpl in H.
  - injection H as <- _. simpl. lia.
  - apply bind_ok_inv in H as (d & w1 & _ & H).
    apply IH in H. rewrite length_app in H. simpl in *. lia.
Qed.

Lemma next_batch_length (samples : list LogRow) (batch_size : nat)
    (images : list (string * Qc)) (w w' : world) :
  next_batch samples batch_size w = (Ok images, w') -> length images = batch_size.
Proof.
  intros H. apply bind_ok_inv in H as (rows & w1 & Hrows & H).
  apply next_batch_loop_length in H.
  apply np_random_randint_n_length in Hrows. simpl in H. lia.
Qed.

(** *** Nothing writes files *)

Lemma keeps_ret {A} (a : A) : keeps_files (ret a).
Proof. intros w. reflexivity. Qed.

Lemma keeps_raise {A} (e : exn) : keeps_files (raise (A := A) e).
Proof. intros w. reflexivity. Qed.

Lemma keeps_bind {A B} (c : M A) (k : A -> M B) :
  keeps_files c -> (forall a, keeps_files (k a)) -> keeps_files (bind c k).
Proof.
  intros Hc Hk w. unfold bind. specialize (Hc w).
  destruct (c w) as [[a | e] w1]; simpl in *; [| assumption].
  now rewrite Hk.
Qed.

Lemma keeps_if {A} (b : bool) (c1 c2 : M A) :
  keeps_files c1 -> keeps_files c2 -> keeps_files (if b then c1 else c2).
Proof. now destruct b. Qed.

Lemma keeps_read (a : ndarray) : keeps_files (read a).
Proof. intros w. reflexivity. Qed.

Lemma keeps_alloc (img : image) : keeps_files (alloc img).
Proof. intros w. reflexivity. Qed.

Lemma keeps_py_raw : keeps_files py_raw.
Proof. intros w. reflexivity. Qed.

Lemma keeps_np_raw : keeps_files np_raw.
Proof. intros w. reflexivity. Qed.

Lemma keeps_load_global (name : string) : keeps_files (load_global name).
Proof. intros w. unfold load_global. now destruct (globals w !! name). Qed.

Lemma keeps_plt_imread (path : string) : keeps_files (plt_imread path).
Proof. intros w. unfold plt_imread. now destruct (files w path). Qed.

Lemma keeps_as_dsize (v : pyobj) : keeps_files (as_dsize v).
Proof.
  intros w. unfold as_dsize.
  destruct v as [| | | [| [] [| [] []]] |]; try reflexivity.
  now destruct (_ && _).
Qed.

Create HintDb keeps.
#[local] Hint Resolve keeps_ret keeps_raise keeps_read keeps_alloc keeps_py_raw
  keeps_np_raw keeps_load_global keeps_plt_imread keeps_as_dsize : keeps.
#[local] Hint Extern 2 (keeps_files (bind _ _)) =>
  apply keeps_bind; [| intros ?] : keeps.
#[local] Hint Extern 2 (keeps_files (if _ then _ else _)) =>
  apply keeps_if : keeps.

Lemma keeps_generate_new_image (image : ndarray) (angle p : Qc) :
  keeps_files (generate_new_image image angle p).
Proof.
  unfold generate_new_image, random_random, random_shear, np_random_randint,
    py_div, cv2_warpAffine.
  auto 12 with keeps.
Qed.

Lemma keeps_batch_body (path : string) (angle : Qc) (augment : bool) :
  keeps_files (batch_body path angle augment).
Proof.
  unfold batch_body, crop, resize, cv2_resize.
  pose proof keeps_generate_new_image. auto 12 with keeps.
Qed.

(** A file of the batch that does not load ends the loop with an
    exception, wherever it stands in the batch. *)
Lemma batch_loop_fails (images : list (string * Qc)) (augment : bool)
    (X : list ndarray) (y : list Qc) (p : string) (a : Qc) (e : exn) (w : world) :
  (p, a) ∈ images -> files w p = Raise e ->
  exists e' w', batch_loop images augment X y w = (Raise e', w').
Proof.
  revert X y w. induction images as [| [p0 a0] images IH]; intros X y w Hin Hf.
  - now apply not_elem_of_nil in Hin.
  - cbn [batch_loop]. unfold bind at 1.
    pose proof (keeps_batch_body p0 a0 augment w) as Hk.
    destruct (batch_body p0 a0 augment w) as [[r | e0] w1] eqn:Hb; [| eauto].
    apply elem_of_cons in Hin as [Heq | Hin].
    + injection Heq as <- <-. exfalso. revert Hb.
      unfold batch_body, bind at 1, plt_imread. now rewrite Hf.
    + apply IH; [assumption |]. simpl in Hk. now rewrite Hk.
Qed.

(** C9.  A failure while a batch is built is not caught: the exception
    of the row sampling, or of the loader on the first file that does not
    load, is what [next] raises, unchanged and from the state the failure
    left (nothing is retried); the generator is then finished.  A batch
    with a file that does not load is never emitted, and a batch that is
    emitted is never partial: it has [batch_size] images and [batch_size]
    angles. *)
Theorem generator_propagates_failure
    (samples : list LogRow) (batch_size : nat) (augment : bool) (w : world) :
  let g := generate_next_batch samples batch_size augment in
  (forall e w1,
      next_batch samples batch_size w = (Raise e, w1) ->
      next g w = (Raise e, finished g, w1))
  /\ (forall images pre p a post X y w1 w2 e,
      next_batch samples batch_size w = (Ok images, w1) ->
      images = pre ++ (p, a) :: post ->
      batch_loop pre augment [] [] w1 = (Ok (X, y), w2) ->
      files w2 p = Raise e ->
      next g w = (Raise e, finished g, w2))
  /\ (forall w', next (finished g) w' = (Raise StopIteration, finished g, w'))
  /\ (forall images p a e w1,
      next_batch samples batch_size w = (Ok images, w1) ->
      (p, a) ∈ images -> files w1 p = Raise e ->
      exists e' w', next g w = (Raise e', finished g, w'))
  /\ (forall X y g' w',
      next g w = (Ok (X, y), g', w') ->
      length X = batch_size /\ length y = batch_size).
Proof.
  intros g. repeat split.
  - intros e w1 H. unfold next, batch_iteration, bind. simpl. now rewrite H.
  - intros images pre p a post X y w1 w2 e Hnb -> Hpre Hfile.
    unfold next, batch_iteration. simpl. unfold bind at 1. rewrite Hnb.
    unfold bind at 1. rewrite batch_loop_app. unfold bind at 1. rewrite Hpre.
    cbn [batch_loop fst snd]. unfold bind at 1, batch_body, bind at 1, plt_imread.
    now rewrite Hfile.
  - intros images p a e w1 Hnb Hin Hfile.
    destruct (batch_loop_fails images augment [] [] p a e w1 Hin Hfile)
      as (e' & w' & Hloop).
    exists e', w'. unfold next, batch_iteration. simpl.
    unfold bind at 1. rewrite Hnb. unfold bind at 1. now rewrite Hloop.
  - unfold next, batch_iteration, bind in H. simpl in H.
    destruct (next_batch samples batch_size w) as [[images | e] w1] eqn:Hnb;
      [| discriminate].
    destruct (batch_loop images augment [] [] w1) as [[[X' y'] | e] w2] eqn:Hl;
      [| discriminate].
    cbn [fst snd] in H. unfold np_array in H.
    destruct (forallb _ _); [| discriminate].
    injection H as <- <- _ _.
    apply batch_loop_length in Hl as [HX _]. apply next_batch_length in Hnb.
    rewrite length_fmap. simpl in HX. lia.
  - unfold next, batch_iteration, bind in H. simpl in H.
    destruct (next_batch samples batch_size w) as [[images | e] w1] eqn:Hnb;
      [| discriminate].
    destruct (batch_loop images augment [] [] w1) as [[[X' y'] | e] w2] eqn:Hl;
      [| discriminate].
    cbn [fst snd] in H. unfold np_array in H.
    destruct (forallb _ _); [| discriminate].
    injection H as <- <- _ _.
    apply batch_loop_length in Hl as [_ Hy]. apply next_batch_length in Hnb.
    simpl in Hy. lia.
Qed.

(** ** The shadow polygon *)

Lemma this_of_int (n : Z) : this (of_int n) = inject_Z n.
Proof.
  unfold of_int. simpl. apply Qred_identity. simpl. apply Z.gcd_1_r.
Qed.

Lemma as_integer_of_int (n : Z) : as_integer (of_int n) = Some n.
Proof. unfold as_integer. now rewrite this_of_int. Qed.

Lemma of_int_add (a b : Z) : of_int a + of_int b = of_int (a + b).
Proof.
  apply Qc_is_canon. simpl. rewrite !Qred_correct.
  rewrite inject_Z_plus. reflexivity.
Qed.

Lemma of_int_double (k : Z) : of_int (2 * k) / of_int 2 = of_int k.
Proof.
  assert (E : of_int (2 * k) = of_int k * of_int 2).
  { apply Qc_is_canon. simpl. rewrite !Qred_correct.
    rewrite inject_Z_mult. ring. }
  rewrite E. field. apply of_int_2_neq0.
Qed.

Lemma random_randint_run (a b : Z) (w : world) :
  (a <= b)%Z ->
  random_randint (of_int a) (of_int b) w
  = (Ok (a + py_rng w 0%nat mod (b + 1 - a))%Z, py_advance w).
Proof.
  intros Hab. unfold random_randint.
  rewrite of_int_add, !as_integer_of_int.
  destruct (Z.ltb_spec 0 (b + 1 - a)); [reflexivity | lia].
Qed.

(** A bound that is not an integer is refused. *)
Lemma random_randint_half_odd (k : Z) (w : world) :
  random_randint (of_int 0) (of_int (2 * k + 1) / of_int 2) w
  = (Raise (ValueError "non-integer stop for randrange()"), w).
Proof.
  unfold random_randint. rewrite as_integer_of_int.
  assert (E : of_int (2 * k + 1) / of_int 2 + of_int 1
              = Q2Qc ((2 * k + 3) # 2)).
  { apply Qc_is_canon. simpl. rewrite !Qred_correct.
    unfold Qeq, Qinv, Qmult, Qplus. simpl. lia. }
  rewrite E. unfold as_integer.
  assert (Hthis : this (Q2Qc (2 * k + 3 # 2)) = (2 * k + 3 # 2)).
  { simpl. apply Qred_identity. simpl. rewrite Z.gcd_comm.
    replace (2 * k + 3)%Z with (1 + (k + 1) * 2)%Z by lia.
    rewrite Z.gcd_add_mult_diag_r. reflexivity. }
  now rewrite Hthis.
Qed.

Lemma get_shadow_poly_run (hx hy : Z) (w : world) :
  (0 <= hx)%Z -> (0 <= hy)%Z ->
  get_shadow_poly (2 * hx) (2 * hy) w = (Ok (poly_of hx hy w), after_poly w).
Proof.
  intros Hx Hy. unfold get_shadow_poly, poly_of.
  unfold bind at 1, np_random_uniform, bind at 1, np_raw, ret.
  rewrite !of_int_double.
  destruct (Qc_ltb _ _).
  - unfold bind at 1. rewrite random_randint_run by lia.
    unfold bind at 1. rewrite random_randint_run by lia.
    unfold bind at 1. rewrite random_randint_run by lia.
    unfold bind at 1. rewrite random_randint_run by lia.
    reflexivity.
  - unfold bind at 1. rewrite random_randint_run by lia.
    unfold bind at 1. rewrite random_randint_run by lia.
    unfold bind at 1. rewrite random_randint_run by lia.
    unfold bind at 1. rewrite random_randint_run by lia.
    reflexivity.
Qed.

Lemma corners_first_two {A} (f : A -> bool) (p1 p2 p3 p4 : A) :
  f p1 = true -> f p2 = true ->
  Nat.leb 2 (corners_with f [p1; p2; p3; p4]) = true.
Proof.
  intros H1 H2. unfold corners_with. simpl. rewrite H1, H2.
  now destruct (f p3), (f p4).
Qed.

Lemma corners_last_two {A} (f : A -> bool) (p1 p2 p3 p4 : A) :
  f p3 = true -> f p4 = true ->
  Nat.leb 2 (corners_with f [p1; p2; p3; p4]) = true.
Proof.
  intros H3 H4. unfold corners_with. simpl. rewrite H3, H4.
  now destruct (f p1), (f p2).
Qed.

(** X16.  In the axes of its own parameters the polygon is as intended: for
    even bounds below 2^53, which a double halves exactly, every corner
    lies in [0, max_x] x [0, max_y], two corners lie on one side of that
    rectangle and two on the opposite side, and the drawn coordinates
    lie in the lower and the upper half of their axis: the polygon fits
    an image of [max_x] columns and [max_y] rows. *)
Lemma get_shadow_poly_own_axes (hx hy : Z) (w : world) :
  (0 <= 2 * hx < 2 ^ 53)%Z -> (0 <= 2 * hy < 2 ^ 53)%Z ->
  exists poly,
    get_shadow_poly (2 * hx) (2 * hy) w = (Ok poly, after_poly w)
    /\ spans_image (2 * hy) (2 * hx) poly = true
    /\ ((exists x1 x2 x3 x4,
          poly = [(x1, 0); (x2, 0); (x3, 2 * hy); (x4, 2 * hy)]
          /\ 0 <= x1 <= hx /\ hx <= x2 <= 2 * hx
          /\ hx <= x3 <= 2 * hx /\ 0 <= x4 <= hx)
        \/ (exists y1 y2 y3 y4,
          poly = [(0, y1); (0, y2); (2 * hx, y3); (2 * hx, y4)]
          /\ 0 <= y1 <= hy /\ hy <= y2 <= 2 * hy
          /\ hy <= y3 <= 2 * hy /\ 0 <= y4 <= hy))%Z.
Proof.
  intros [Hx _] [Hy _]. exists (poly_of hx hy w).
  split; [apply get_shadow_poly_run; lia |].
  pose proof (Z.mod_pos_bound (py_rng w 0%nat) (hx + 1 - 0)) as A0.
  pose proof (Z.mod_pos_bound (py_rng w 1%nat) (2 * hx + 1 - hx)) as A1.
  pose proof (Z.mod_pos_bound (py_rng w 2%nat) (2 * hx + 1 - hx)) as A2.
  pose proof (Z.mod_pos_bound (py_rng w 3%nat) (hx + 1 - 0)) as A3.
  pose proof (Z.mod_pos_bound (py_rng w 0%nat) (hy + 1 - 0)) as B0.
  pose proof (Z.mod_pos_bound (py_rng w 1%nat) (2 * hy + 1 - hy)) as B1.
  pose proof (Z.mod_pos_bound (py_rng w 2%nat) (2 * hy + 1 - hy)) as B2.
  pose proof (Z.mod_pos_bound (py_rng w 3%nat) (hy + 1 - 0)) as B3.
  assert (Hspan : forall p1 p2 p3 p4 : Z * Z,
    forallb (in_image (2 * hy) (2 * hx)) [p1; p2; p3; p4] = true ->
    (p1.2 = 0 /\ p2.2 = 0 /\ p3.2 = 2 * hy /\ p4.2 = 2 * hy)%Z
    \/ (p1.1 = 0 /\ p2.1 = 0 /\ p3.1 = 2 * hx /\ p4.1 = 2 * hx)%Z ->
    spans_image (2 * hy) (2 * hx) [p1; p2; p3; p4] = true).
  { intros p1 p2 p3 p4 Hin Hedges. unfold spans_image. rewrite Hin.
    destruct Hedges as [(E1 & E2 & E3 & E4) | (E1 & E2 & E3 & E4)].
    - rewrite corners_first_two, corners_last_two; auto using Z.eqb_eq;
        now apply Z.eqb_eq.
    - rewrite (corners_first_two (fun p => p.1 =? 0)%Z),
        (corners_last_two (fun p => p.1 =? 2 * hx)%Z);
        try (now apply Z.eqb_eq).
      apply orb_true_r. }
  unfold poly_of. destruct (Qc_ltb _ _).
  - split.
    + apply Hspan; [| left; auto].
      unfold in_image. cbn [forallb fst snd].
      repeat (apply andb_true_intro; split); try reflexivity;
        apply Z.leb_le; lia.
    + left. do 4 eexists. split; [reflexivity | lia].
  - split.
    + apply Hspan; [| right; auto].
      unfold in_image. cbn [forallb fst snd].
      repeat (apply andb_true_intro; split); try reflexivity;
        apply Z.leb_le; lia.
    + right. do 4 eexists. split; [reflexivity | lia].
Qed.

(** ** Shadows *)

Lemma shape_fill (poly : list (Z * Z)) (color : Z) (img : image) :
  shape (fill poly color img) = shape img.
Proof.
  destruct img as [| [| px row] img']; try reflexivity;
    unfold shape, fill; cbn [imap hd]; rewrite !length_cons, !length_imap;
    try reflexivity.
  destruct (in_poly poly 0 0); [| reflexivity].
  now rewrite length_fmap.
Qed.

Lemma shape_weighted (i1 i2 : image) (alpha beta gamma : Qc) :
  shape i1 = shape i2 -> shape (weighted i1 alpha i2 beta gamma) = shape i2.
Proof.
  unfold shape, weighted. intros H.
  destruct i1 as [| r1 i1'], i2 as [| r2 i2']; try discriminate H;
    [reflexivity |].
  cbn [zip_with hd length] in *. injection H as H1 H2 H3.
  rewrite length_zip_with, H1, Nat.min_id.
  destruct r1 as [| p1 r1'], r2 as [| p2 r2']; try discriminate H2;
    [reflexivity |].
  cbn [zip_with hd length] in *.
  rewrite !length_zip_with. injection H2 as H2.
  now rewrite H2, H3, !Nat.min_id.
Qed.

Lemma bool_decide_shape_true (s1 s2 : nat * nat * nat) :
  s1 = s2 -> bool_decide_shape s1 s2 = true.
Proof. intros ->. unfold bool_decide_shape. now apply bool_decide_eq_true. Qed.

Lemma cv2_addWeighted_into (src1 src2 : ndarray) (alpha beta gamma : Qc)
    (w : world) :
  let i1 := deref (heap w) src1 in
  let i2 := deref (heap w) src2 in
  reversed (view src2) = false -> shape i1 = shape i2 ->
  cv2_addWeighted src1 alpha src2 beta gamma (Some src2) w
  = (Ok src2,
     set_heap (alter (fun b => write_view (view src2) b
                                 (weighted i1 alpha i2 beta gamma))
                     (base src2) (heap w)) w).
Proof.
  intros i1 i2 Hlayout Hshape. unfold cv2_addWeighted. rewrite Hlayout.
  unfold bind, read. fold i1 i2.
  rewrite (bool_decide_shape_true _ _ Hshape). cbn [negb].
  fold i2. now rewrite (bool_decide_shape_true _ _ (eq_sym Hshape)).
Qed.

Lemma cv2_fillPoly_run (a : ndarray) (poly : list (Z * Z)) (color : Z) (w : world) :
  cv2_fillPoly a poly color w
  = (Ok tt,
     set_heap (alter (fun b => write_view (view a) b
                                 (fill poly color (deref (heap w) a)))
                     (base a) (heap w)) w).
Proof. reflexivity. Qed.

(** What [random_shadows] does on an image that fills a buffer and has an
    even number of rows and of columns. *)
Lemma random_shadows_run (image : ndarray) (hx hy : Z) (w : world) :
  let img := deref (heap w) image in
  let painted := fill (poly_of hx hy w) (-1) img in
  let alpha :=
    fl 0.6 + (fl 0.9 - fl 0.6) * unit_float (np_rng (after_poly w) 0%nat) in
  let out := weighted painted alpha img (of_int 1 - alpha) (of_int 0) in
  view image = [] -> img <> [] ->
  Z.of_nat (shape img).1.1 = (2 * hx)%Z -> Z.of_nat (shape img).1.2 = (2 * hy)%Z ->
  random_shadows image w
  = (Ok image,
     set_heap (<[base image := out]> (heap w ++ [painted]))
              (np_advance (after_poly w))).
Proof.
  intros img painted alpha out Hview Hne Hrows Hcols.
  pose proof (deref_valid _ _ Hne) as Hvalid.
  unfold random_shadows, ndarray_copy.
  unfold bind at 1, bind at 1, read at 1. fold img.
  unfold alloc at 1.
  unfold bind at 1, read at 1.
  change (heap (set_heap ?h _)) with h.
  rewrite deref_fresh, Hrows, Hcols.
  unfold bind at 1.
  rewrite (get_shadow_poly_run hx hy (set_heap (heap w ++ [img]) w)) by lia.
  change (poly_of hx hy (set_heap (heap w ++ [img]) w)) with (poly_of hx hy w).
  unfold bind at 1. rewrite cv2_fillPoly_run.
  change (heap (after_poly (set_heap ?h _))) with h.
  cbn [base view write_view].
  rewrite deref_fresh, heap_alter_fresh. fold painted.
  unfold bind at 1, np_random_uniform, bind at 1, np_raw, ret.
  set (w3 := np_advance _).
  assert (Hh3 : heap w3 = heap w ++ [painted]) by reflexivity.
  change (fl 0.6 + _) with alpha.
  rewrite cv2_addWeighted_into; [| now rewrite Hview |];
    rewrite Hh3, deref_fresh,
      (deref_app (heap w) [painted] image Hvalid); fold img;
    [| apply shape_fill].
  fold out. rewrite Hview. cbn [write_view].
  unfold set_heap, w3. cbn [heap globals py_rng np_rng files
    np_advance after_poly py_advance set_heap].
  do 2 f_equal.
  apply list_eq. intros i.
  destruct (decide (i = base image)) as [-> | Hi].
  - rewrite list_lookup_alter_eq, list_lookup_insert_eq
      by (rewrite length_app; lia).
    rewrite lookup_app_l by assumption.
    destruct (heap w !! base image) eqn:E; [reflexivity |].
    apply lookup_ge_None in E. lia.
  - now rewrite list_lookup_alter_ne, list_lookup_insert_ne by auto.
Qed.
(** X17.  On an image in a buffer of its own with even numbers of rows
    and columns, [random_shadows] returns its argument, now holding
    the blend: the shape it shows is the shape it showed. *)
Lemma random_shadows_even_shape (image : ndarray) (hx hy : Z) (w : world) :
  let img := deref (heap w) image in
  view image = [] -> img <> [] ->
  Z.of_nat (shape img).1.1 = (2 * hx)%Z -> Z.of_nat (shape img).1.2 = (2 * hy)%Z ->
  exists w',
    random_shadows image w = (Ok image, w')
    /\ shape (deref (heap w') image) = shape img.
Proof.
  intros img Hview Hne Hrows Hcols. eexists. split.
  - apply (random_shadows_run image hx hy w); assumption.
  - pose proof (deref_valid _ _ Hne) as Hvalid.
    change (heap (set_heap ?h _)) with h.
    unfold deref at 1. rewrite Hview.
    rewrite list_lookup_insert_eq by (rewrite length_app; lia).
    simpl default. simpl foldl. rewrite shape_weighted; [reflexivity |].
    apply shape_fill.
Qed.

(** With an odd first bound and the draw that takes the first branch,
    [get_shadow_poly] raises: [max_x / 2] is not an integer. *)
Lemma get_shadow_poly_odd (k max_y : Z) (w : world) :
  Qc_ltb (of_int 0 + (of_int 1 - of_int 0) * unit_float (np_rng w 0%nat))
         (fl 0.5) = true ->
  get_shadow_poly (2 * k + 1) max_y w
  = (Raise (ValueError "non-integer stop for randrange()"), np_advance w).
Proof.
  intros Hb. unfold get_shadow_poly.
  unfold bind at 1, np_random_uniform, bind at 1, np_raw, ret.
  rewrite Hb. unfold bind at 1. now rewrite random_randint_half_odd.
Qed.

(** On an image that is wider than it is tall, the polygon of the first
    branch has its last two corners at y = width, below the last row. *)
Lemma poly_of_leaves_image (hx hy : Z) (w : world) :
  (0 <= hx < hy)%Z ->
  Qc_ltb (of_int 0 + (of_int 1 - of_int 0) * unit_float (np_rng w 0%nat))
         (fl 0.5) = true ->
  spans_image (2 * hx) (2 * hy) (poly_of hx hy w) = false.
Proof.
  intros Hxy Hb. unfold poly_of. rewrite Hb.
  unfold spans_image, in_image. cbn [forallb fst snd].
  destruct (Z.leb_spec (2 * hy) (2 * hx)); [lia |].
  now rewrite !andb_false_r.
Qed.

(** ** The loop body without augmentation *)

Lemma plt_imread_run (path : string) (img : image) (w : world) :
  files w path = Ok img ->
  plt_imread path w
  = (Ok {| base := length (heap w); view := [] |}, set_heap (heap w ++ [img]) w).
Proof. intros H. unfold plt_imread. now rewrite H. Qed.

(** When the globals have no [resize_dim], the first image that loads
    ends the batch with a [NameError]. *)
Lemma batch_body_unbound (path : string) (angle : Qc) (img : image) (w : world) :
  globals w !! "resize_dim"%string = None ->
  files w path = Ok img ->
  batch_body path angle false w
  = (Raise (NameError "resize_dim"), set_heap (heap w ++ [img]) w).
Proof.
  intros Hg Hf. unfold batch_body. unfold bind at 1.
  rewrite (plt_imread_run path img w Hf).
  unfold bind at 1, crop, bind at 1, read, ret.
  unfold bind at 1, load_global.
  change (globals (set_heap ?h ?w0)) with (globals w0). now rewrite Hg.
Qed.

Lemma shape_crop_window (img : image) :
  rectangular img -> (60 < length img)%nat -> (0 < (shape img).1.2)%nat ->
  shape (apply_vop (Window HORIZON BONNET 0 (shape img).1.2) img)
  = (Nat.min 76 (length img - 60), (shape img).1.2, (shape img).2).
Proof.
  intros Hrect Hlen Hcols. cbn [apply_vop]. unfold slice at 2.
  change (BONNET - HORIZON)%nat with 76%nat. change HORIZON with 60%nat.
  destruct (drop 60 img) as [| r d'] eqn:E.
  { apply (f_equal length) in E. rewrite length_drop in E. simpl in E. lia. }
  assert (Hin : r ∈ img).
  { apply (subseteq_drop 60 img). rewrite E. apply list_elem_of_here. }
  pose proof (rectangular_rows img r Hrect Hin) as Hr.
  apply (f_equal length) in E. rewrite length_drop in E. simpl in E.
  cbn [take]. rewrite fmap_cons. unfold shape at 1. cbn [hd].
  rewrite slice_all by assumption.
  rewrite length_cons, length_fmap, length_take. f_equal; [f_equal; lia |].
  destruct r as [| px r']; [rewrite <- Hr in Hcols; simpl in Hcols; lia |].
  cbn [hd].
  apply (rectangular_pixels img (px :: r') px Hrect Hin). apply list_elem_of_here.
Qed.

(** When the globals do bind [resize_dim] to a pair (width, height), an
    image of more than 60 rows that loads comes out of the loop body
    with [height] rows and [width] columns, and its angle untouched. *)
Lemma batch_body_resized (path : string) (angle : Qc) (img : image)
    (width height : nat) (w : world) :
  globals w !! "resize_dim"%string
  = Some (PSeq [PInt (Z.of_nat width); PInt (Z.of_nat height)]) ->
  files w path = Ok img ->
  rectangular img -> (60 < length img)%nat -> (0 < (shape img).1.2)%nat ->
  (0 < width)%nat -> (0 < height)%nat ->
  exists out w',
    batch_body path angle false w = (Ok (out, angle), w')
    /\ shape (deref (heap w') out) = (height, width, (shape img).2).
Proof.
  intros Hg Hf Hrect Hlen Hcols Hw Hh. unfold batch_body. unfold bind at 1.
  rewrite (plt_imread_run path img w Hf).
  unfold bind at 1, crop, bind at 1, read, ret.
  change (heap (set_heap ?h _)) with h. rewrite deref_fresh.
  unfold bind at 1, load_global.
  change (globals (set_heap ?h ?w0)) with (globals w0). rewrite Hg.
  unfold bind at 1, as_dsize.
  destruct (Z.leb_spec 0 (Z.of_nat width)); [| lia].
  destruct (Z.leb_spec 0 (Z.of_nat height)); [| lia].
  cbn [andb]. unfold ret at 1. rewrite !Nat2Z.id.
  unfold bind at 1, resize, cv2_resize, bind at 1, read.
  change (heap (set_heap ?h _)) with h.
  unfold getitem_window. rewrite deref_snoc, deref_fresh. cbn [base view app].
  rewrite (shape_crop_window img Hrect Hlen Hcols). cbn [fst snd].
  destruct (Nat.eqb_spec (Nat.min 76 (length img - 60)) 0); [lia |].
  destruct (Nat.eqb_spec (shape img).1.2 0); [lia |].
  destruct (Nat.eqb_spec width 0); [lia |].
  destruct (Nat.eqb_spec height 0); [lia |].
  cbn [orb]. do 2 eexists. split; [reflexivity |].
  cbn [alloc fst snd]. change (heap (set_heap ?h _)) with h.
  rewrite length_app. cbn [length].
  replace (length (heap w) + 1)%nat with (length (heap w ++ [img]))
    by (rewrite length_app; reflexivity).
  rewrite deref_fresh. now apply shape_build.
Qed.

Lemma helper_has_no_resize_dim : helper_globals !! "resize_dim"%string = None.
Proof. reflexivity. Qed.

(** ** Sampling a batch *)

Lemma same_store_trans (w1 w2 w3 : world) :
  same_store w1 w2 -> same_store w2 w3 -> same_store w1 w3.
Proof.
  intros (A1 & A2 & A3) (B1 & B2 & B3). repeat split; congruence.
Qed.

Lemma np_random_randint_n_ok (low high : Z) (size : nat) (w : world) :
  (low < high)%Z ->
  exists rows w',
    np_random_randint_n low high size w = (Ok rows, w')
    /\ same_store w w'
    /\ Forall (fun x => low <= x < high)%Z rows.
Proof.
  intros Hlh. revert w. induction size as [| n IH]; intros w; simpl.
  - exists [], w. repeat split. constructor.
  - unfold bind at 1. rewrite np_random_randint_run by assumption.
    destruct (IH (np_advance w)) as (xs & w' & Hxs & Hs & Hall).
    unfold bind at 1. rewrite Hxs.
    exists ((low + np_rng w 0%nat mod (high - low))%Z :: xs), w'.
    split; [reflexivity |]. split.
    + apply (same_store_trans w (np_advance w) w'); [now repeat split | assumption].
    + constructor; [| assumption].
      pose proof (Z.mod_pos_bound (np_rng w 0%nat) (high - low)). lia.
Qed.

Lemma get_random_camera_data_ok (samples : list LogRow) (index : Z) (w : world) :
  (0 <= index < Z.of_nat (length samples))%Z ->
  exists path angle row,
    get_random_camera_data samples index w = (Ok (path, angle), np_advance w)
    /\ row ∈ samples /\ path ∈ camera_paths row.
Proof.
  intros Hi.
  destruct (lookup_lt_is_Some_2 samples (Z.to_nat index)) as [row Hrow]; [lia |].
  rewrite (get_random_camera_data_run samples index row w) by (lia || assumption).
  unfold camera_paths.
  destruct (_ =? 0)%Z; [| destruct (_ =? 1)%Z]; do 3 eexists;
    (split; [reflexivity |]); (split; [eapply list_elem_of_lookup_2, Hrow |]);
    rewrite !elem_of_cons; auto.
Qed.

Lemma next_batch_loop_ok (samples : list LogRow) (rows : list Z)
    (batch : list (string * Qc)) (w : world) :
  Forall (fun x => 0 <= x < Z.of_nat (length samples))%Z rows ->
  exists new w',
    next_batch_loop samples rows batch w = (Ok (batch ++ new), w')
    /\ same_store w w'
    /\ length new = length rows
    /\ Forall (fun d => exists row, row ∈ samples /\ d.1 ∈ camera_paths row) new.
Proof.
  intros Hall. revert batch w.
  induction Hall as [| i rows Hi Hall IH]; intros batch w; simpl.
  - exists [], w. rewrite app_nil_r. repeat split. constructor.
  - destruct (get_random_camera_data_ok samples i w Hi)
      as (path & angle & row & Hrun & Hin & Hp).
    unfold bind at 1. rewrite Hrun.
    destruct (IH (batch ++ [(path, angle)]) (np_advance w))
      as (new & w' & Hloop & Hs & Hlen & Hnew).
    exists ((path, angle) :: new), w'. rewrite Hloop, <- app_assoc.
    split; [reflexivity |]. split; [| split].
    + apply (same_store_trans w (np_advance w) w'); [now repeat split | assumption].
    + simpl. now rewrite Hlen.
    + constructor; [| assumption]. now exists row.
Qed.

Lemma next_batch_ok (samples : list LogRow) (batch_size : nat) (w : world) :
  samples <> [] ->
  exists images w',
    next_batch samples batch_size w = (Ok images, w')
    /\ same_store w w'
    /\ length images = batch_size
    /\ Forall (fun d => exists row, row ∈ samples /\ d.1 ∈ camera_paths row) images.
Proof.
  intros Hne. unfold next_batch.
  destruct (np_random_randint_n_ok 0 (Z.of_nat (length samples)) batch_size w)
    as (rows & w1 & Hrows & Hs1 & Hall).
  { destruct samples; [congruence | simpl; lia]. }
  destruct (next_batch_loop_ok samples rows [] w1 Hall)
    as (new & w' & Hloop & Hs2 & Hlen & Hnew).
  exists new, w'. unfold bind. rewrite Hrows, Hloop.
  split; [reflexivity |]. split; [| split].
  - now apply (same_store_trans w w1 w').
  - apply np_random_randint_n_length in Hrows. lia.
  - assumption.
Qed.

(** C2, on the code.  Without augmentation, for every non-empty log whose
    files all load and every batch size of at least one, the generator
    built from the module as it is raises [NameError] for [resize_dim] at
    the first image: no batch is emitted, resized or not. *)
Theorem generate_next_batch_resize_dim_unbound
    (samples : list LogRow) (batch_size : nat) (w : world) :
  samples <> [] -> (0 < batch_size)%nat ->
  globals w = helper_globals ->
  (forall row path, row ∈ samples -> path ∈ camera_paths row ->
     exists img, files w path = Ok img) ->
  let g := generate_next_batch samples batch_size false in
  exists w', next g w = (Raise (NameError "resize_dim"), finished g, w').
Proof.
  intros Hne Hsize Hglob Hfiles g.
  destruct (next_batch_ok samples batch_size w Hne)
    as (images & w1 & Hnb & (Hh & Hg & Hf) & Hlen & Hall).
  destruct images as [| [p a] images]; [simpl in Hlen; lia |].
  apply Forall_cons_1 in Hall as [(row & Hrow & Hp) _].
  destruct (Hfiles row p Hrow Hp) as [img Himg].
  unfold next, batch_iteration. simpl. unfold bind at 1. rewrite Hnb.
  unfold bind at 1. cbn [batch_loop]. unfold bind at 1.
  rewrite (batch_body_unbound p a img w1).
  - eexists. reflexivity.
  - rewrite Hg, Hglob. apply helper_has_no_resize_dim.
  - now rewrite Hf.
Qed.

(** ** The two defects of the shadow polygon *)

(** C5, on the code.  [random_shadows] passes (rows, columns) for
    (max_x, max_y), and [fillPoly] reads the polygon's points as
    (column, row).  For an image wider than it is tall (2 hx rows,
    2 hy columns, hx < hy) the polygon of the first branch has two corners
    at y = 2 hy, outside the image: it does not stay within the image
    bounds. *)
Theorem get_shadow_poly_transposed (hx hy : Z) (w : world) :
  (0 <= hx < hy)%Z ->
  Qc_ltb (of_int 0 + (of_int 1 - of_int 0) * unit_float (np_rng w 0%nat))
         (fl 0.5) = true ->
  exists poly,
    get_shadow_poly (2 * hx) (2 * hy) w = (Ok poly, after_poly w)
    /\ spans_image (2 * hx) (2 * hy) poly = false.
Proof.
  intros Hxy Hb. exists (poly_of hx hy w). split.
  - apply get_shadow_poly_run; lia.
  - now apply poly_of_leaves_image.
Qed.

(** C8, on the code.  On an image with an odd number of rows, with the
    draw that takes the first branch of [get_shadow_poly],
    [random_shadows] returns no image: it raises the [ValueError] of
    [random.randint(0, max_x/2)]. *)
Theorem random_shadows_odd_rows (image : ndarray) (k : Z) (w : world) :
  Z.of_nat (shape (deref (heap w) image)).1.1 = (2 * k + 1)%Z ->
  Qc_ltb (of_int 0 + (of_int 1 - of_int 0) * unit_float (np_rng w 0%nat))
         (fl 0.5) = true ->
  (random_shadows image w).1
  = Raise (ValueError "non-integer stop for randrange()").
Proof.
  intros Hrows Hb. unfold random_shadows, ndarray_copy.
  unfold bind at 1, bind at 1, read at 1, alloc at 1.
  unfold bind at 1, read at 1.
  change (heap (set_heap ?h _)) with h.
  rewrite deref_fresh, Hrows.
  unfold bind at 1. now rewrite get_shadow_poly_odd.
Qed.

(** * Further properties of the module *)

(** ** The draws of [random.random()] *)

Lemma Qc_ltb_spec (x y : Qc) : Qc_ltb x y = true <-> x < y.
Proof. unfold Qc_ltb, Qclt, Qlt. apply Z.ltb_lt. Qed.

Lemma unit_float_range (raw : Z) : 0 <= unit_float raw /\ unit_float raw < 1.
Proof.
  pose proof (Z.mod_pos_bound raw (2 ^ 53) eq_refl) as Hm.
  unfold Qcle, Qclt, unit_float. cbn [this Q2Qc].
  rewrite !Qred_correct. unfold Qle, Qlt. cbn [Qnum Qden].
  change (this 0) with 0%Q. change (this 1) with 1%Q. cbn [Qnum Qden].
  change (Z.pos (2 ^ 53)) with (2 ^ 53)%Z. lia.
Qed.

Lemma Qc_ltb_unit_nonpos (raw : Z) (p : Qc) :
  p <= 0 -> Qc_ltb (unit_float raw) p = false.
Proof.
  intros Hp. destruct (Qc_ltb (unit_float raw) p) eqn:E; [| reflexivity].
  apply Qc_ltb_spec in E. destruct (unit_float_range raw) as [H0 _].
  exfalso. apply (Qclt_not_le _ _ E). now apply Qcle_trans with 0.
Qed.

Lemma Qc_ltb_unit_one (raw : Z) (p : Qc) :
  1 <= p -> Qc_ltb (unit_float raw) p = true.
Proof.
  intros Hp. apply Qc_ltb_spec. destruct (unit_float_range raw) as [_ H1].
  now apply Qclt_le_trans with 1.
Qed.

(** ** Flip and composer at the ends of the probability range *)

(** X1.  [random_flip] with a probability of 0 (or below) never flips and
    with a probability of 1 (or above) always flips, whatever is drawn:
    the draw of [random.random()] lies in [0, 1). *)
Theorem random_flip_extremes
    (image : ndarray) (steering_angle flipping_prob : Qc) (w : world) :
  (flipping_prob <= 0 ->
   random_flip image steering_angle flipping_prob w
   = (Ok (image, steering_angle), py_advance w))
  /\ (1 <= flipping_prob ->
      random_flip image steering_angle flipping_prob w
      = (Ok (np_fliplr image, - steering_angle), py_advance w)).
Proof.
  split; intros Hp; rewrite random_flip_run.
  - now rewrite Qc_ltb_unit_nonpos.
  - now rewrite Qc_ltb_unit_one.
Qed.

(** What [generate_new_image] does, by its draw. *)
Lemma generate_new_image_run
    (image : ndarray) (steering_angle do_shear_prob : Qc) (w : world) :
  generate_new_image image steering_angle do_shear_prob w
  = if Qc_ltb (unit_float (py_rng w 0%nat)) do_shear_prob
    then random_shear image steering_angle 200 (py_advance w)
    else (Ok (image, steering_angle), py_advance w).
Proof.
  unfold generate_new_image, random_random, bind, py_raw, ret.
  now destruct (Qc_ltb _ _).
Qed.


(** ** The batch sampler *)

Lemma get_random_camera_data_among (samples : list LogRow) (index : Z) (w : world) :
  (0 <= index < Z.of_nat (length samples))%Z ->
  exists d row,
    get_random_camera_data samples index w = (Ok d, np_advance w)
    /\ row ∈ samples /\ d ∈ camera_pairs row.
Proof.
  intros Hi.
  destruct (lookup_lt_is_Some_2 samples (Z.to_nat index)) as [row Hrow]; [lia |].
  rewrite (get_random_camera_data_run samples index row w) by (lia || assumption).
  unfold camera_pairs.
  destruct (_ =? 0)%Z; [| destruct (_ =? 1)%Z]; do 2 eexists;
    (split; [reflexivity |]); (split; [eapply list_elem_of_lookup_2, Hrow |]);
    rewrite !elem_of_cons; auto.
Qed.

Lemma next_batch_loop_among (samples : list LogRow) (rows : list Z)
    (batch : list (string * Qc)) (w : world) :
  Forall (fun x => 0 <= x < Z.of_nat (length samples))%Z rows ->
  exists new w',
    next_batch_loop samples rows batch w = (Ok (batch ++ new), w')
    /\ same_store w w' /\ py_rng w' = py_rng w
    /\ length new = length rows
    /\ Forall (fun d => exists row, row ∈ samples /\ d ∈ camera_pairs row) new.
Proof.
  intros Hall. revert batch w.
  induction Hall as [| i rows Hi Hall IH]; intros batch w; simpl.
  - exists [], w. rewrite app_nil_r. repeat split. constructor.
  - destruct (get_random_camera_data_among samples i w Hi)
      as (d & row & Hrun & Hin & Hd).
    unfold bind at 1. rewrite Hrun.
    destruct (IH (batch ++ [d]) (np_advance w))
      as (new & w' & Hloop & Hs & Hpy & Hlen & Hnew).
    exists (d :: new), w'. rewrite Hloop, <- app_assoc.
    split; [reflexivity |]. split; [| split; [| split]].
    + apply (same_store_trans w (np_advance w) w'); [now repeat split | assumption].
    + exact Hpy.
    + simpl. now rewrite Hlen.
    + constructor; [| assumption]. now exists row.
Qed.

Lemma np_random_randint_n_py (low high : Z) (size : nat)
    (rows : list Z) (w w' : world) :
  np_random_randint_n low high size w = (Ok rows, w') -> py_rng w' = py_rng w.
Proof.
  revert rows w w'. induction size as [| n IH]; intros rows w w' H; simpl in H.
  - now injection H as _ <-.
  - apply bind_ok_inv in H as (x & w1 & Hx & H).
    apply bind_ok_inv in H as (xs & w2 & Hxs & H).
    injection H as _ <-. rewrite (IH _ _ _ Hxs).
    unfold np_random_randint in Hx.
    destruct (high <=? low)%Z; [discriminate |]. now injection Hx as _ <-.
Qed.

(** X3.  On a non-empty log [next_batch] returns exactly [batch_size]
    pairs, each the stripped path of one camera of a row of the log with
    that row's angle corrected for that camera (unchanged, plus or minus
    STEERING_COEFFICIENT).  It draws from [np.random] only and leaves the
    heap, the globals and the files alone. *)
Theorem next_batch_spec (samples : list LogRow) (batch_size : nat) (w : world) :
  samples <> [] ->
  exists batch w',
    next_batch samples batch_size w = (Ok batch, w')
    /\ length batch = batch_size
    /\ Forall (fun d => exists row, row ∈ samples /\ d ∈ camera_pairs row) batch
    /\ same_store w w' /\ py_rng w' = py_rng w.
Proof.
  intros Hne. unfold next_batch.
  destruct (np_random_randint_n_ok 0 (Z.of_nat (length samples)) batch_size w)
    as (rows & w1 & Hrows & Hs1 & Hall).
  { destruct samples; [congruence | simpl; lia]. }
  destruct (next_batch_loop_among samples rows [] w1 Hall)
    as (new & w' & Hloop & Hs2 & Hpy & Hlen & Hnew).
  exists new, w'. unfold bind. rewrite Hrows, Hloop.
  split; [reflexivity |]. split; [| split; [| split]].
  - apply np_random_randint_n_length in Hrows. lia.
  - assumption.
  - now apply (same_store_trans w w1 w').
  - rewrite Hpy. eapply np_random_randint_n_py, Hrows.
Qed.

(** X4.  On an empty log [next_batch] raises a [ValueError], the one of
    [np.random.randint(0, 0, batch_size)], for every batch size of at
    least one, and changes nothing: no row is read and nothing is drawn.
    The first [next] of a generator on an empty log raises the same
    exception, with or without augmentation, and the generator is then
    finished. *)
Theorem next_batch_empty_log (batch_size : nat) (augment : bool) (w : world) :
  (0 < batch_size)%nat ->
  exists msg : string,
    next_batch [] batch_size w = (Raise (ValueError msg), w)
    /\ next (generate_next_batch [] batch_size augment) w
       = (Raise (ValueError msg),
          finished (generate_next_batch [] batch_size augment), w).
Proof.
  intros Hn. destruct batch_size as [| n]; [lia |].
  eexists. split; reflexivity.
Qed.

(** ** Row access *)

Lemma iloc_negative (csv : list LogRow) (index : Z) :
  (- Z.of_nat (length csv) <= index < 0)%Z ->
  iloc csv index = iloc csv (index + Z.of_nat (length csv)).
Proof.
  intros Hi. unfold iloc.
  destruct (Z.ltb_spec index 0); [| lia].
  destruct (Z.ltb_spec (index + Z.of_nat (length csv)) 0); [lia |].
  reflexivity.
Qed.

Lemma iloc_out_of_range (csv : list LogRow) (index : Z) (w : world) :
  (Z.of_nat (length csv) <= index \/ index < - Z.of_nat (length csv))%Z ->
  iloc csv index w = (Raise IndexError, w).
Proof.
  intros Hi. unfold iloc.
  destruct (Z.ltb_spec index 0).
  - destruct (Z.leb_spec 0 (index + Z.of_nat (length csv))); [lia | reflexivity].
  - destruct (Z.leb_spec 0 index); [| lia].
    destruct (Z.ltb_spec index (Z.of_nat (length csv))); [lia | reflexivity].
Qed.

(** X5.  [get_random_camera_data] with a row index outside the log (at
    or beyond its length, or below minus its length) raises [IndexError]
    after the camera has been drawn; an index of [-n, 0) counts from the
    end of a log of n rows: it gives what the index plus n gives. *)
Theorem get_random_camera_data_index (csv : list LogRow) (index : Z) (w : world) :
  let n := Z.of_nat (length csv) in
  ((n <= index \/ index < - n)%Z ->
   get_random_camera_data csv index w = (Raise IndexError, np_advance w))
  /\ ((- n <= index < 0)%Z ->
      get_random_camera_data csv index w
      = get_random_camera_data csv (index + n) w).
Proof.
  intros n. split; intros Hi.
  - unfold get_random_camera_data, bind.
    rewrite np_random_randint_run by lia.
    now rewrite iloc_out_of_range.
  - unfold get_random_camera_data. now rewrite (iloc_negative csv index Hi).
Qed.

(** ** The shadow polygon, branch by branch *)

Lemma get_shadow_poly_first (hx max_y : Z) (w : world) :
  (0 <= hx)%Z -> first_branch w = true ->
  get_shadow_poly (2 * hx) max_y w
  = (Ok [(0 + py_rng w 0%nat mod (hx + 1 - 0), 0);
         (hx + py_rng w 1%nat mod (2 * hx + 1 - hx), 0);
         (hx + py_rng w 2%nat mod (2 * hx + 1 - hx), max_y);
         (0 + py_rng w 3%nat mod (hx + 1 - 0), max_y)]%Z,
     after_poly w).
Proof.
  intros Hx Hb. unfold first_branch in Hb. unfold get_shadow_poly.
  unfold bind at 1, np_random_uniform, bind at 1, np_raw, ret.
  rewrite Hb, !of_int_double.
  unfold bind at 1. rewrite random_randint_run by lia.
  unfold bind at 1. rewrite random_randint_run by lia.
  unfold bind at 1. rewrite random_randint_run by lia.
  unfold bind at 1. rewrite random_randint_run by lia.
  reflexivity.
Qed.

Lemma get_shadow_poly_second (max_x hy : Z) (w : world) :
  (0 <= hy)%Z -> first_branch w = false ->
  get_shadow_poly max_x (2 * hy) w
  = (Ok [(0, 0 + py_rng w 0%nat mod (hy + 1 - 0));
         (0, hy + py_rng w 1%nat mod (2 * hy + 1 - hy));
         (max_x, hy + py_rng w 2%nat mod (2 * hy + 1 - hy));
         (max_x, 0 + py_rng w 3%nat mod (hy + 1 - 0))]%Z,
     after_poly w).
Proof.
  intros Hy Hb. unfold first_branch in Hb. unfold get_shadow_poly.
  unfold bind at 1, np_random_uniform, bind at 1, np_raw, ret.
  rewrite Hb, !of_int_double.
  unfold bind at 1. rewrite random_randint_run by lia.
  unfold bind at 1. rewrite random_randint_run by lia.
  unfold bind at 1. rewrite random_randint_run by lia.
  unfold bind at 1. rewrite random_randint_run by lia.
  reflexivity.
Qed.

Lemma get_shadow_poly_second_odd (max_x k : Z) (w : world) :
  first_branch w = false ->
  get_shadow_poly max_x (2 * k + 1) w
  = (Raise (ValueError "non-integer stop for randrange()"), np_advance w).
Proof.
  intros Hb. unfold first_branch in Hb. unfold get_shadow_poly.
  unfold bind at 1, np_random_uniform, bind at 1, np_raw, ret.
  rewrite Hb. unfold bind at 1. now rewrite random_randint_half_odd.
Qed.

(** X6.  For non-negative bounds below 2^53, which a double halves
    exactly, [get_shadow_poly] returns a polygon exactly when the bound
    that the drawn branch halves is even ([max_x] in the first branch,
    [max_y] in the second); when that bound is odd it raises
    [ValueError], having consumed the branch draw only. *)
Theorem get_shadow_poly_succeeds_iff (max_x max_y : Z) (w : world) :
  (0 <= max_x < 2 ^ 53)%Z -> (0 <= max_y < 2 ^ 53)%Z ->
  let bound := if first_branch w then max_x else max_y in
  ((exists poly w', get_shadow_poly max_x max_y w = (Ok poly, w'))
   <-> Z.even bound = true)
  /\ (Z.even bound = false ->
      get_shadow_poly max_x max_y w
      = (Raise (ValueError "non-integer stop for randrange()"), np_advance w)).
Proof.
  intros [Hx _] [Hy _] bound.
  assert (Hodd : Z.even bound = false ->
    get_shadow_poly max_x max_y w
    = (Raise (ValueError "non-integer stop for randrange()"), np_advance w)).
  { intros Hev. unfold bound in Hev.
    destruct (first_branch w) eqn:Hb.
    - assert (Ho : Z.odd max_x = true) by (now rewrite <- Z.negb_even, Hev).
      apply Z.odd_spec in Ho as [k ->].
      apply get_shadow_poly_odd. exact Hb.
    - assert (Ho : Z.odd max_y = true) by (now rewrite <- Z.negb_even, Hev).
      apply Z.odd_spec in Ho as [k ->].
      now apply get_shadow_poly_second_odd. }
  split; [| exact Hodd]. split.
  - intros (poly & w' & Hrun).
    destruct (Z.even bound) eqn:Hev; [reflexivity |].
    rewrite (Hodd eq_refl) in Hrun. discriminate Hrun.
  - intros Hev. unfold bound in Hev.
    destruct (first_branch w) eqn:Hb.
    + apply Z.even_spec in Hev as [hx ->]. do 2 eexists.
      apply get_shadow_poly_first; [lia | exact Hb].
    + apply Z.even_spec in Hev as [hy ->]. do 2 eexists.
      apply get_shadow_poly_second; [lia | exact Hb].
Qed.

(** ** Flipping twice, cropping twice *)

Lemma fliplr_involutive (img : image) :
  apply_vop Fliplr (apply_vop Fliplr img) = img.
Proof.
  cbn [apply_vop]. rewrite <- list_fmap_compose.
  rewrite <- (list_fmap_id img) at 2. apply list_fmap_ext.
  intros i row _. apply reverse_involutive.
Qed.

(** X7.  Two calls of [random_flip] that both flip give back what went
    in: the angle is the original angle and the array returned, a view
    on the buffer of the input, shows the input image. *)
Theorem random_flip_twice
    (image : ndarray) (steering_angle flipping_prob : Qc) (w : world) :
  Qc_ltb (unit_float (py_rng w 0%nat)) flipping_prob = true ->
  Qc_ltb (unit_float (py_rng w 1%nat)) flipping_prob = true ->
  exists out,
    bind (random_flip image steering_angle flipping_prob)
         (fun r => random_flip r.1 r.2 flipping_prob) w
    = (Ok (out, steering_angle), py_advance (py_advance w))
    /\ base out = base image
    /\ deref (heap (py_advance (py_advance w))) out = deref (heap w) image.
Proof.
  intros H0 H1. exists (np_fliplr (np_fliplr image)).
  split; [| split].
  - unfold bind. rewrite random_flip_run, H0. cbn [fst snd].
    rewrite random_flip_run. cbn [py_advance py_rng]. rewrite H1.
    now rewrite Qcopp_involutive.
  - reflexivity.
  - change (heap (py_advance (py_advance w))) with (heap w).
    unfold np_fliplr at 1. rewrite deref_snoc.
    unfold np_fliplr. rewrite deref_snoc. apply fliplr_involutive.
Qed.

Lemma deref_crop (h : list image) (image : ndarray) :
  let img := deref h image in
  rectangular img ->
  deref h (getitem_window image HORIZON BONNET 0 (shape img).1.2)
  = take 76 (drop 60 img).
Proof.
  intros img Hrect. unfold getitem_window. rewrite deref_snoc. fold img.
  cbn [apply_vop]. unfold slice at 2. change (BONNET - HORIZON)%nat with 76%nat.
  change HORIZON with 60%nat.
  apply list_eq. intros i. rewrite list_lookup_fmap.
  destruct (take 76 (drop 60 img) !! i) as [row |] eqn:E; [| reflexivity].
  simpl. f_equal. apply slice_all.
  apply (rectangular_rows img row Hrect).
  apply list_elem_of_lookup_2 in E.
  now apply subseteq_take, subseteq_drop in E.
Qed.

(** X8.  [crop] never raises and never draws.  On an image of H rows it
    shows the rows 60 to min(H, 136) - 1 of the input, in full: no row at
    all when H <= 60, and H - 60 rows when 60 < H < 136. *)
Theorem crop_any_height (image : ndarray) (w : world) :
  let img := deref (heap w) image in
  rectangular img ->
  exists cropped : ndarray,
    crop image w = (Ok cropped, w)
    /\ length (deref (heap w) cropped) = Nat.min 76 (length img - 60)
    /\ (forall i : nat, (i < 76)%nat ->
          deref (heap w) cropped !! i = img !! (60 + i)%nat)
    /\ (forall i : nat, (76 <= i)%nat -> deref (heap w) cropped !! i = None).
Proof.
  intros img Hrect.
  exists (getitem_window image HORIZON BONNET 0 (shape img).1.2).
  split; [reflexivity |].
  assert (Hd : deref (heap w)
                 (getitem_window image HORIZON BONNET 0 (shape img).1.2)
               = take 76 (drop 60 img))
    by (apply (deref_crop (heap w) image Hrect)).
  rewrite Hd. split; [| split].
  - now rewrite length_take, length_drop.
  - intros i Hi. rewrite lookup_take_lt by assumption. apply lookup_drop.
  - intros i Hi. now apply lookup_take_ge.
Qed.

Lemma rectangular_cropped (img : image) :
  rectangular img -> (60 < length img)%nat ->
  rectangular (take 76 (drop 60 img))
  /\ (shape (take 76 (drop 60 img))).1.2 = (shape img).1.2.
Proof.
  intros Hrect Hlen.
  destruct (drop 60 img) as [| r d'] eqn:E.
  { apply (f_equal length) in E. rewrite length_drop in E. simpl in E. lia. }
  assert (Hsub : forall row, row ∈ r :: take 75 d' -> row ∈ img).
  { intros row Hin. apply (subseteq_drop 60 img). rewrite E.
    apply elem_of_cons in Hin as [-> | Hin]; [apply list_elem_of_here |].
    apply list_elem_of_further. now apply (subseteq_take 75 d'). }
  assert (Hr : r ∈ img) by (apply Hsub, list_elem_of_here).
  pose proof (rectangular_rows img r Hrect Hr) as Hlr.
  assert (H2 : length (hd [] r) = (shape img).2).
  { destruct r as [| px r'].
    - unfold shape in *. cbn [fst snd length hd] in *.
      destruct (hd [] img); [reflexivity | discriminate Hlr].
    - apply (rectangular_pixels img (px :: r') px Hrect Hr), list_elem_of_here. }
  cbn [take]. split; [| exact Hlr].
  unfold rectangular. apply Forall_forall. intros row Hin.
  unfold shape at 1 2. cbn [hd fst snd]. rewrite Hlr, H2.
  apply Hsub in Hin. split.
  - now apply rectangular_rows.
  - apply Forall_forall. intros px Hpx.
    now apply (rectangular_pixels img row px Hrect Hin).
Qed.

(** X9.  [crop] is not idempotent: applied to its own result on an image
    of at least 136 rows it keeps 16 rows, the rows 120 to 135 of the
    input. *)
Theorem crop_twice (image : ndarray) (w : world) :
  let img := deref (heap w) image in
  rectangular img -> (136 <= length img)%nat ->
  exists cropped : ndarray,
    bind (crop image) crop w = (Ok cropped, w)
    /\ length (deref (heap w) cropped) = 16%nat
    /\ forall i : nat, (i < 16)%nat ->
         deref (heap w) cropped !! i = img !! (120 + i)%nat.
Proof.
  intros img Hrect Hlen.
  set (c1 := getitem_window image HORIZON BONNET 0 (shape img).1.2).
  assert (Hd1 : deref (heap w) c1 = take 76 (drop 60 img))
    by (apply (deref_crop (heap w) image Hrect)).
  destruct (rectangular_cropped img Hrect) as [Hrect1 Hcols1]; [lia |].
  exists (getitem_window c1 HORIZON BONNET 0 (shape (deref (heap w) c1)).1.2).
  split; [reflexivity |].
  pose proof (deref_crop (heap w) c1) as Hd2. cbv zeta in Hd2.
  rewrite Hd2 by (rewrite Hd1; exact Hrect1). rewrite Hd1.
  split.
  - rewrite !length_take, !length_drop, !length_take, !length_drop. lia.
  - intros i Hi. rewrite lookup_take_lt, lookup_drop by lia.
    rewrite lookup_take_lt, lookup_drop by lia. f_equal; lia.
Qed.

(** ** The shear at its edges *)

(** X10.  [random_shear] with a negative range raises the [ValueError]
    of [np.random.randint] and changes nothing; with a range of zero it
    can only draw the offset 0 and returns, on an image of at least one
    row and one column, the angle it was given. *)
Theorem random_shear_range_edges
    (image : ndarray) (steering_angle : Qc) (shear_range : Z) (w : world) :
  let img := deref (heap w) image in
  ((shear_range < 0)%Z ->
   random_shear image steering_angle shear_range w
   = (Raise (ValueError "low >= high"), w))
  /\ ((1 <= (shape img).1.1)%nat -> (0 < (shape img).1.2)%nat ->
      exists out w',
        random_shear image steering_angle 0 w = (Ok (out, steering_angle), w')).
Proof.
  intros img. split.
  - intros Hsr. unfold random_shear, bind at 1, read, bind at 1, np_random_randint.
    destruct (Z.leb_spec (shear_range + 1) (- shear_range)); [| lia].
    unfold empty_range. now destruct (Z.eqb_spec (- shear_range) 0); [lia |].
  - intros Hrows Hcols.
    rewrite random_shear_run by (fold img; lia).
    assert (Hdx : shear_dx 0 w = 0%Z).
    { unfold shear_dx. change (0 + 1 - - 0)%Z with 1%Z. now rewrite Z.mod_1_r. }
    rewrite Hdx. fold img.
    assert (Hang : steering_angle
                   + of_int 0 / (of_int (Z.of_nat (shape img).1.1) / of_int 2)
                     * of_int 360 / (of_int 2 * np_pi * fl 25.0) / fl 6.0
                   = steering_angle).
    { change (of_int 0) with 0.
      field. repeat split;
        auto using fl_6_neq0, fl_25_neq0, np_pi_neq0, of_int_2_neq0.
      apply of_int_neq0. lia. }
    rewrite Hang. do 2 eexists. reflexivity.
Qed.

Lemma of_int_le (a b : Z) : (a <= b)%Z -> of_int a <= of_int b.
Proof.
  intros H. unfold Qcle. rewrite !this_of_int.
  unfold Qle, inject_Z. cbn [Qnum Qden]. lia.
Qed.

Lemma of_int_pos (n : Z) : (0 < n)%Z -> 0 < of_int n.
Proof.
  intros H. unfold Qclt. rewrite this_of_int. change (this 0) with (inject_Z 0).
  unfold Qlt, inject_Z. cbn [Qnum Qden]. lia.
Qed.

Lemma of_int_opp (n : Z) : of_int (- n) = - of_int n.
Proof.
  apply Qc_is_canon. simpl. rewrite !Qred_correct.
  unfold Qeq, Qopp, inject_Z. simpl. lia.
Qed.

(** The slope of the shear: the change of angle per pixel of offset. *)
Lemma shear_slope_pos (rows : nat) :
  (0 < rows)%nat ->
  0 < / (of_int (Z.of_nat rows) / of_int 2) * of_int 360
      / (of_int 2 * np_pi * fl 25.0) / fl 6.0.
Proof.
  intros Hrows. unfold Qcdiv.
  repeat apply Qcmult_pos_pos; try apply Qcinv_pos;
    repeat apply Qcmult_pos_pos; try apply Qcinv_pos;
    try (apply of_int_pos; lia); reflexivity.
Qed.

(** X11.  The angle that [random_shear] returns on an image of H >= 1
    rows, for a range of 64-bit integers, differs from the angle it was
    given by at most shear_range / (H/2) * 360 / (2 pi 25.0) / 6.0, in
    either direction. *)
Theorem random_shear_angle_bounded
    (image : ndarray) (steering_angle : Qc) (shear_range : Z) (w : world) :
  let img := deref (heap w) image in
  let H := (shape img).1.1 in
  let bound := of_int shear_range / (of_int (Z.of_nat H) / of_int 2) * of_int 360
               / (of_int 2 * np_pi * fl 25.0) / fl 6.0 in
  (1 <= H)%nat -> (0 < (shape img).1.2)%nat ->
  (0 <= shear_range < 2 ^ 63 - 1)%Z ->
  exists out angle w',
    random_shear image steering_angle shear_range w = (Ok (out, angle), w')
    /\ steering_angle - bound <= angle /\ angle <= steering_angle + bound.
Proof.
  intros img H bound HH Hcols [Hsr _].
  rewrite random_shear_run by (assumption || (fold img; fold H; lia)).
  fold img H. do 3 eexists. split; [reflexivity |].
  set (c := / (of_int (Z.of_nat H) / of_int 2) * of_int 360
            / (of_int 2 * np_pi * fl 25.0) / fl 6.0).
  assert (Hc : 0 <= c) by (apply Qclt_le_weak, shear_slope_pos; exact HH).
  assert (Hne : of_int (Z.of_nat H) <> 0) by (apply of_int_neq0; lia).
  assert (Hform : forall x : Z,
    of_int x / (of_int (Z.of_nat H) / of_int 2) * of_int 360
    / (of_int 2 * np_pi * fl 25.0) / fl 6.0 = of_int x * c).
  { intros x. unfold c. field.
    repeat split; auto using fl_6_neq0, fl_25_neq0, np_pi_neq0, of_int_2_neq0. }
  unfold bound. rewrite !Hform.
  assert (Hdx : (- shear_range <= shear_dx shear_range w <= shear_range)%Z).
  { unfold shear_dx.
    pose proof (Z.mod_pos_bound (np_rng w 0%nat)
                  (shear_range + 1 - - shear_range)). lia. }
  split.
  - replace (steering_angle - of_int shear_range * c)
      with (steering_angle + of_int (- shear_range) * c)
      by (rewrite of_int_opp; ring).
    apply Qcplus_le_compat; [apply Qcle_refl |].
    apply Qcmult_le_compat_r; [apply of_int_le; lia | exact Hc].
  - apply Qcplus_le_compat; [apply Qcle_refl |].
    apply Qcmult_le_compat_r; [apply of_int_le; lia | exact Hc].
Qed.

(** ** Brightness and the number of channels *)

Lemma shape_convert_rgba (img : image) :
  (shape img).2 = 4%nat ->
  shape (convert COLOR_RGB2HSV img) = ((shape img).1.1, (shape img).1.2, 3%nat).
Proof.
  intros H4. destruct img as [| [| px row] img']; try discriminate H4.
  unfold shape in H4. simpl in H4.
  destruct px as [| a [| b [| c [| d [| e px]]]]]; try discriminate H4.
  unfold shape, convert. rewrite !fmap_cons, !length_cons, !length_fmap.
  cbn [hd fst snd]. now rewrite !length_cons, length_fmap.
Qed.

Lemma cv2_cvtColor_accepted (src : ndarray) (code : color_code) (w : world) :
  accepts code (shape (deref (heap w) src)).2 = true ->
  cv2_cvtColor src code w
  = (Ok {| base := length (heap w); view := [] |},
     set_heap (heap w ++ [convert code (deref (heap w) src)]) w).
Proof. intros Ha. unfold cv2_cvtColor, bind, read. now rewrite Ha. Qed.

(** X12.  [random_brightness] keeps the rows and columns of a
    four-channel image but returns it with three channels: the fourth
    channel is dropped by the conversion to HSV.  On an image whose
    pixels have neither three nor four channels it raises the error of
    [cv2.cvtColor] before it draws or allocates anything. *)
Theorem random_brightness_channels (image : ndarray) (median dev : Qc) (w : world) :
  let img := deref (heap w) image in
  ((shape img).2 = 4%nat ->
   exists out w',
     random_brightness image median dev w = (Ok out, w')
     /\ shape (deref (heap w') out) = ((shape img).1.1, (shape img).1.2, 3%nat))
  /\ ((shape img).2 <> 3%nat -> (shape img).2 <> 4%nat ->
      random_brightness image median dev w
      = (Raise (cv2_error "cvtColor: invalid number of channels in input image"),
         w)).
Proof.
  intros img. split.
  - intros H4.
    assert (Hs : shape (convert COLOR_RGB2HSV img)
                 = ((shape img).1.1, (shape img).1.2, 3%nat))
      by now apply shape_convert_rgba.
    unfold random_brightness.
    unfold bind at 1. rewrite cv2_cvtColor_accepted by (fold img; now rewrite H4).
    fold img.
    unfold bind at 1, np_random_uniform, bind at 1, np_raw, ret.
    unfold bind at 1, setitem_channel, bind at 1, read, store. simpl.
    rewrite deref_fresh, heap_alter_fresh.
    set (hsv := map_channel 2 _ (convert COLOR_RGB2HSV img)).
    assert (Hh : shape hsv = ((shape img).1.1, (shape img).1.2, 3%nat))
      by (unfold hsv; now rewrite shape_map_channel).
    unfold bind at 1. rewrite cv2_cvtColor_run.
    + do 2 eexists. split; [reflexivity |].
      cbn [heap set_heap]. rewrite !deref_fresh.
      rewrite shape_convert by (now rewrite Hh). exact Hh.
    + cbn [heap set_heap]. rewrite deref_fresh. now rewrite Hh.
  - intros H3 H4. unfold random_brightness, bind at 1, cv2_cvtColor, bind at 1, read.
    fold img. unfold accepts.
    destruct (Nat.eqb_spec (shape img).2 3); [contradiction |].
    destruct (Nat.eqb_spec (shape img).2 4); [contradiction |].
    reflexivity.
Qed.

(** ** Views and the in-place blend *)

(** X13.  The mirror that [random_flip] returns is a view of its
    argument, and [random_shadows] writes into its argument: after
    [random_shadows(image)] the mirror obtained before from
    [random_flip(image, ...)] shows the mirror of the shadowed image,
    not of the image it was taken from. *)
Theorem flipped_view_follows_shadows
    (image : ndarray) (steering_angle flipping_prob : Qc) (hx hy : Z) (w : world) :
  let img := deref (heap w) image in
  let w1 := py_advance w in
  let painted := fill (poly_of hx hy w1) (-1) img in
  let alpha :=
    fl 0.6 + (fl 0.9 - fl 0.6) * unit_float (np_rng (after_poly w1) 0%nat) in
  let out := weighted painted alpha img (of_int 1 - alpha) (of_int 0) in
  view image = [] -> img <> [] ->
  Z.of_nat (shape img).1.1 = (2 * hx)%Z -> Z.of_nat (shape img).1.2 = (2 * hy)%Z ->
  Qc_ltb (unit_float (py_rng w 0%nat)) flipping_prob = true ->
  exists w2,
    bind (random_flip image steering_angle flipping_prob)
         (fun r => bind (random_shadows image) (fun _ => read r.1)) w
    = (Ok (reverse <$> out), w2)
    /\ deref (heap w2) image = out.
Proof.
  intros img w1 painted alpha out Hview Hne Hrows Hcols Hflip.
  pose proof (deref_valid _ _ Hne) as Hvalid.
  unfold bind at 1. rewrite random_flip_run, Hflip. cbn [fst].
  unfold bind at 1. fold w1.
  rewrite (random_shadows_run image hx hy w1) by assumption.
  fold img painted alpha out.
  assert (Hout : forall o p : list (list (list chan)),
    deref (<[base image := o]> (heap w ++ [p])) image = o).
  { intros o p. unfold deref. rewrite Hview.
    rewrite list_lookup_insert_eq by (rewrite length_app; lia). reflexivity. }
  eexists. split.
  - unfold read. cbn [heap set_heap]. change (heap w1) with (heap w).
    unfold np_fliplr. rewrite deref_snoc. cbn [apply_vop].
    rewrite Hout. reflexivity.
  - cbn [heap set_heap]. change (heap w1) with (heap w). apply Hout.
Qed.

(** ** Whole batches *)

Lemma deref_prefix (h h' : list image) (a : ndarray) :
  h `prefix_of` h' -> (base a < length h)%nat -> deref h' a = deref h a.
Proof. intros [k ->] Hlt. now apply deref_app. Qed.

Lemma prefix_length_le (h h' : list image) :
  h `prefix_of` h' -> (length h <= length h')%nat.
Proof. intros [k ->]. rewrite length_app. lia. Qed.

(** The loop over a batch whose every body succeeds: [Q] holds of every
    image it collects, [R] relates every sampled angle to its label. *)
Lemma batch_loop_total (augment : bool) (Q : image -> Prop) (R : Qc -> Qc -> Prop)
    (w0 : world) (images : list (string * Qc)) :
  (forall p a w1, (p, a) ∈ images ->
     files w1 = files w0 -> globals w1 = globals w0 ->
     exists out a' w2,
       batch_body p a augment w1 = (Ok (out, a'), w2)
       /\ heap w1 `prefix_of` heap w2 /\ (base out < length (heap w2))%nat
       /\ Q (deref (heap w2) out) /\ R a a'
       /\ files w2 = files w1 /\ globals w2 = globals w1) ->
  forall X y w,
    files w = files w0 -> globals w = globals w0 ->
    Forall (fun a => (base a < length (heap w))%nat /\ Q (deref (heap w) a)) X ->
    exists X' y' w',
      batch_loop images augment X y w = (Ok (X ++ X', y ++ y'), w')
      /\ files w' = files w0 /\ globals w' = globals w0
      /\ Forall (fun a => (base a < length (heap w'))%nat
                          /\ Q (deref (heap w') a)) (X ++ X')
      /\ Forall2 R (images.*2) y'.
Proof.
  induction images as [| [p a] images IH]; intros Hbody X y w Hf Hg HX.
  - exists [], [], w. rewrite !app_nil_r. repeat split; auto; constructor.
  - destruct (Hbody p a w (list_elem_of_here _ _) Hf Hg)
      as (out & a' & w2 & Hrun & Hpre & Hvalid & HQ & HR & Hf2 & Hg2).
    assert (HX2 : Forall (fun a0 => (base a0 < length (heap w2))%nat
                                    /\ Q (deref (heap w2) a0)) (X ++ [out])).
    { apply Forall_app. split.
      - eapply Forall_impl; [exact HX |]. intros a0 [Hlt HQ0]. split.
        + pose proof (prefix_length_le _ _ Hpre). lia.
        + now rewrite (deref_prefix _ _ a0 Hpre Hlt).
      - constructor; [now split | constructor]. }
    destruct (IH (fun p0 a0 w1 Hin => Hbody p0 a0 w1 (list_elem_of_further _ _ _ Hin))
                 (X ++ [out]) (y ++ [a']) w2)
      as (X' & y' & w' & Hloop & Hf' & Hg' & HX' & HR');
      [congruence | congruence | exact HX2 |].
    exists (out :: X'), (a' :: y'), w'.
    cbn [batch_loop]. unfold bind at 1. rewrite Hrun. cbn [fst snd].
    rewrite Hloop, <- !app_assoc. cbn [app].
    repeat split; auto.
    + now rewrite <- app_assoc in HX'.
    + simpl. now constructor.
Qed.

Lemma batch_body_augmented (p : string) (a : Qc) (img : image) (w1 : world) :
  files w1 p = Ok img ->
  (0 < (shape img).1.1)%nat -> (0 < (shape img).1.2)%nat ->
  exists out a' w2,
    batch_body p a true w1 = (Ok (out, a'), w2)
    /\ heap w1 `prefix_of` heap w2 /\ (base out < length (heap w2))%nat
    /\ shape (deref (heap w2) out) = shape img
    /\ files w2 = files w1 /\ globals w2 = globals w1.
Proof.
  intros Hf Hrows Hcols. unfold batch_body. unfold bind at 1.
  rewrite (plt_imread_run p img w1 Hf). rewrite generate_new_image_run.
  set (ws := set_heap (heap w1 ++ [img]) w1).
  set (fresh := {| base := length (heap w1); view := [] |}).
  assert (Hd : deref (heap (py_advance ws)) fresh = img) by apply deref_fresh.
  destruct (Qc_ltb _ _).
  - rewrite random_shear_run by (rewrite ?Hd; assumption || lia).
    rewrite Hd. do 3 eexists. split; [reflexivity |].
    cbn [heap set_heap]. change (heap (py_advance ws)) with (heap w1 ++ [img]).
    split; [| split; [| split; [| split]]]; try reflexivity.
    + rewrite <- app_assoc. now apply prefix_app_r.
    + rewrite !length_app. simpl. lia.
    + rewrite deref_fresh, shape_build by assumption.
      now destruct (shape img) as [[? ?] ?].
  - do 3 eexists. split; [reflexivity |].
    change (heap (py_advance ws)) with (heap w1 ++ [img]).
    split; [| split; [| split; [| split]]]; try reflexivity.
    + now apply prefix_app_r.
    + rewrite length_app. simpl. lia.
    + now rewrite deref_fresh.
Qed.

(** [np.array] takes arrays of one shape. *)
Lemma np_array_uniform (s : nat * nat * nat) (l : list ndarray) (w : world) :
  Forall (fun a => shape (deref (heap w) a) = s) l ->
  np_array l w = (Ok (deref (heap w) <$> l), w).
Proof.
  intros Hall. unfold np_array.
  assert (Hsame : forallb (fun i : list (list (list chan)) =>
                    bool_decide_shape (shape i)
                      (shape (hd [] (deref (heap w) <$> l))))
                    (deref (heap w) <$> l) = true).
  { assert (Hhd : l <> [] -> shape (hd [] (deref (heap w) <$> l)) = s).
    { destruct Hall as [| a l' Ha _]; [congruence | intros _; exact Ha]. }
    induction Hall as [| a l' Ha Hl IH] in Hhd |- *; [reflexivity |].
    assert (E : shape (hd [] (deref (heap w) <$> a :: l')) = s)
      by (apply Hhd; discriminate).
    rewrite fmap_cons. cbn [forallb]. apply andb_true_intro. split.
    - apply bool_decide_shape_true. rewrite fmap_cons in E. cbn [hd] in *.
      reflexivity.
    - cbn [hd]. rewrite Ha.
      clear IH Hhd E. induction Hl as [| b l'' Hb _ IH]; [reflexivity |].
      rewrite fmap_cons. cbn [forallb]. rewrite IH, andb_true_r.
      now apply bool_decide_shape_true. }
  now rewrite Hsame.
Qed.

(** X14.  With augmentation, on a non-empty log whose camera files all
    load colour images of one shape (at least one row and one column,
    three or four channels), every [next] of the generator emits a batch
    of [batch_size] images and [batch_size] angles; every image has the
    shape of the files as they were loaded (it is neither cropped nor
    resized); the generator is not finished and the files and globals
    are as before, so the next call meets the same conditions. *)
Theorem augmented_batch_keeps_file_shapes
    (samples : list LogRow) (batch_size rows cols channels : nat) (w : world) :
  samples <> [] ->
  (0 < rows)%nat -> (0 < cols)%nat -> channels = 3%nat \/ channels = 4%nat ->
  (forall row path, row ∈ samples -> path ∈ camera_paths row ->
     exists img, files w path = Ok img /\ shape img = (rows, cols, channels)) ->
  let g := generate_next_batch samples batch_size true in
  exists X y w',
    next g w = (Ok (X, y), g, w')
    /\ length X = batch_size /\ length y = batch_size
    /\ Forall (fun i => shape i = (rows, cols, channels)) X
    /\ files w' = files w /\ globals w' = globals w.
Proof.
  intros Hne Hrows Hcols _ Hfiles g.
  destruct (next_batch_ok samples batch_size w Hne)
    as (images & w1 & Hnb & (Hh & Hg & Hf) & Hlen & Hall).
  set (Q := fun i : list (list (list chan)) => shape i = (rows, cols, channels)).
  destruct (batch_loop_total true Q (fun _ _ => True) w images) with
    (X := @nil ndarray) (y := @nil Qc) (w := w1)
    as (X' & y' & w' & Hloop & Hf' & Hg' & HX' & HR'); auto.
  { intros p a w2 Hin Hf2 Hg2.
    rewrite Forall_forall in Hall.
    destruct (Hall (p, a) Hin) as (row & Hrow & Hp).
    destruct (Hfiles row p Hrow Hp) as (img & Himg & Hs).
    destruct (batch_body_augmented p a img w2) as
      (out & a' & w3 & Hrun & Hpre & Hvalid & Hshape & Hf3 & Hg3);
      [now rewrite Hf2 | now rewrite Hs | now rewrite Hs |].
    exists out, a', w3. repeat split; auto.
    unfold Q. now rewrite Hshape. }
  assert (HQ : Forall (fun a => shape (deref (heap w') a) = (rows, cols, channels)) X').
  { eapply Forall_impl; [exact HX' |]. intros a [_ Ha]. exact Ha. }
  exists (deref (heap w') <$> X'), y', w'.
  split; [| split; [| split; [| split]]].
  - unfold next, batch_iteration. simpl. unfold bind at 1. rewrite Hnb.
    unfold bind at 1. rewrite Hloop. cbn [app fst snd].
    unfold bind at 1. now rewrite (np_array_uniform _ _ _ HQ).
  - apply batch_loop_length in Hloop as [HX _]. rewrite length_fmap.
    simpl in HX. lia.
  - apply batch_loop_length in Hloop as [_ Hy]. simpl in Hy. lia.
  - apply Forall_fmap. exact HQ.
  - now split.
Qed.

Lemma batch_body_resized_run (path : string) (angle : Qc) (img : image)
    (width height : nat) (w : world) :
  globals w !! "resize_dim"%string
  = Some (PSeq [PInt (Z.of_nat width); PInt (Z.of_nat height)]) ->
  files w path = Ok img ->
  rectangular img -> (60 < length img)%nat -> (0 < (shape img).1.2)%nat ->
  (0 < width)%nat -> (0 < height)%nat ->
  exists out w',
    batch_body path angle false w = (Ok (out, angle), w')
    /\ heap w `prefix_of` heap w' /\ (base out < length (heap w'))%nat
    /\ shape (deref (heap w') out) = (height, width, (shape img).2)
    /\ files w' = files w /\ globals w' = globals w.
Proof.
  intros Hg Hf Hrect Hlen Hcols Hw Hh. unfold batch_body. unfold bind at 1.
  rewrite (plt_imread_run path img w Hf).
  unfold bind at 1, crop, bind at 1, read, ret.
  change (heap (set_heap ?h _)) with h. rewrite deref_fresh.
  unfold bind at 1, load_global.
  change (globals (set_heap ?h ?w0)) with (globals w0). rewrite Hg.
  unfold bind at 1, as_dsize.
  destruct (Z.leb_spec 0 (Z.of_nat width)); [| lia].
  destruct (Z.leb_spec 0 (Z.of_nat height)); [| lia].
  cbn [andb]. unfold ret at 1. rewrite !Nat2Z.id.
  unfold bind at 1, resize, cv2_resize, bind at 1, read.
  change (heap (set_heap ?h _)) with h.
  unfold getitem_window. rewrite deref_snoc, deref_fresh. cbn [base view app].
  rewrite (shape_crop_window img Hrect Hlen Hcols). cbn [fst snd].
  destruct (Nat.eqb_spec (Nat.min 76 (length img - 60)) 0); [lia |].
  destruct (Nat.eqb_spec (shape img).1.2 0); [lia |].
  destruct (Nat.eqb_spec width 0); [lia |].
  destruct (Nat.eqb_spec height 0); [lia |].
  cbn [orb]. do 2 eexists. split; [reflexivity |].
  cbn [alloc fst snd]. cbn [heap set_heap].
  split; [| split; [| split; [| split]]]; try reflexivity.
  - rewrite <- app_assoc. now apply prefix_app_r.
  - cbn [base]. rewrite !length_app. simpl. lia.
  - rewrite deref_fresh. now apply shape_build.
Qed.

(** X15.  Without augmentation, once the globals bind [resize_dim] to a
    pair (width, height) of positive integers, on a non-empty log whose
    camera files all load images of more than 60 rows, at least one
    column and one number of channels (three or four), [next] emits a
    batch of [batch_size] images of [height] rows and [width] columns
    each, and its labels are the sampled angles, untouched and in
    order. *)
Theorem resized_batch_when_bound
    (samples : list LogRow) (batch_size width height channels : nat) (w : world) :
  samples <> [] -> (0 < width)%nat -> (0 < height)%nat ->
  channels = 3%nat \/ channels = 4%nat ->
  globals w !! "resize_dim"%string
  = Some (PSeq [PInt (Z.of_nat width); PInt (Z.of_nat height)]) ->
  (forall row path, row ∈ samples -> path ∈ camera_paths row ->
     exists img, files w path = Ok img /\ rectangular img
                 /\ (60 < length img)%nat /\ (0 < (shape img).1.2)%nat
                 /\ (shape img).2 = channels) ->
  let g := generate_next_batch samples batch_size false in
  exists batch w1 X w',
    next_batch samples batch_size w = (Ok batch, w1)
    /\ next g w = (Ok (X, batch.*2), g, w')
    /\ length X = batch_size
    /\ Forall (fun i => (shape i).1 = (height, width)) X.
Proof.
  intros Hne Hw Hh _ Hglob Hfiles g.
  destruct (next_batch_ok samples batch_size w Hne)
    as (images & w1 & Hnb & (Hhp & Hg & Hf) & Hlen & Hall).
  set (Q := fun i : list (list (list chan)) => shape i = (height, width, channels)).
  destruct (batch_loop_total false Q eq w images) with
    (X := @nil ndarray) (y := @nil Qc) (w := w1)
    as (X' & y' & w' & Hloop & Hf' & Hg' & HX' & HR'); auto.
  { intros p a w2 Hin Hf2 Hg2.
    rewrite Forall_forall in Hall.
    destruct (Hall (p, a) Hin) as (row & Hrow & Hp).
    destruct (Hfiles row p Hrow Hp) as (img & Himg & Hrect & Hr & Hc & Hch).
    destruct (batch_body_resized_run p a img width height w2) as
      (out & w3 & Hrun & Hpre & Hvalid & Hshape & Hf3 & Hg3);
      try assumption; [now rewrite Hg2 | now rewrite Hf2 |].
    exists out, a, w3. repeat split; auto.
    unfold Q. now rewrite Hshape, Hch. }
  assert (Hy : y' = images.*2).
  { clear -HR'. induction HR'; [reflexivity |]. simpl. congruence. }
  subst y'.
  assert (HQ : Forall (fun a => shape (deref (heap w') a)
                               = (height, width, channels)) X').
  { eapply Forall_impl; [exact HX' |]. intros a [_ Ha]. exact Ha. }
  exists images, w1, (deref (heap w') <$> X'), w'.
  split; [exact Hnb |]. split; [| split].
  - unfold next, batch_iteration. simpl. unfold bind at 1. rewrite Hnb.
    unfold bind at 1. rewrite Hloop. cbn [app fst snd].
    unfold bind at 1. now rewrite (np_array_uniform _ _ _ HQ).
  - apply batch_loop_length in Hloop as [HX _]. rewrite length_fmap.
    simpl in HX. lia.
  - apply Forall_fmap. eapply Forall_impl; [exact HQ |].
    intros a Ha. unfold compose. now rewrite Ha.
Qed.

(** ** What [random_shadows] writes, and when *)

Lemma keeps_heap_ret {A} (a : A) : keeps_heap (ret a).
Proof. intros w. reflexivity. Qed.

Lemma keeps_heap_raise {A} (e : exn) : keeps_heap (raise (A := A) e).
Proof. intros w. reflexivity. Qed.

Lemma keeps_heap_bind {A B} (c : M A) (k : A -> M B) :
  keeps_heap c -> (forall a, keeps_heap (k a)) -> keeps_heap (bind c k).
Proof.
  intros Hc Hk w. unfold bind. specialize (Hc w).
  destruct (c w) as [[a | e] w1]; simpl in *; [| assumption].
  now rewrite Hk.
Qed.

Lemma keeps_heap_random_randint (a b : Qc) : keeps_heap (random_randint a b).
Proof.
  unfold random_randint.
  destruct (as_integer a); [| apply keeps_heap_raise].
  destruct (as_integer _); [| apply keeps_heap_raise].
  destruct (_ <? _)%Z; [| apply keeps_heap_raise].
  apply keeps_heap_bind; [intros w; reflexivity | intros; apply keeps_heap_ret].
Qed.

Lemma keeps_heap_get_shadow_poly (max_x max_y : Z) :
  keeps_heap (get_shadow_poly max_x max_y).
Proof.
  unfold get_shadow_poly.
  apply keeps_heap_bind; [intros w; reflexivity | intros horizontal].
  destruct (Qc_ltb _ _);
    repeat (apply keeps_heap_bind; [apply keeps_heap_random_randint | intros ?]);
    apply keeps_heap_ret.
Qed.

(** X18.  On an image in a buffer of its own with even numbers of rows
    and columns, [random_shadows] changes one buffer that existed, the
    one of its argument, and adds one buffer, its painted copy: every
    other buffer is as it was. *)
Theorem random_shadows_writes_only_its_argument
    (image : ndarray) (hx hy : Z) (w : world) :
  let img := deref (heap w) image in
  view image = [] -> img <> [] ->
  Z.of_nat (shape img).1.1 = (2 * hx)%Z -> Z.of_nat (shape img).1.2 = (2 * hy)%Z ->
  let w' := (random_shadows image w).2 in
  length (heap w') = S (length (heap w))
  /\ forall l : nat, l <> base image -> (l < length (heap w))%nat ->
       heap w' !! l = heap w !! l.
Proof.
  intros img Hview Hne Hrows Hcols w'. unfold w'.
  rewrite (random_shadows_run image hx hy w) by assumption.
  cbn [snd heap set_heap]. split.
  - rewrite length_insert, length_app. simpl. lia.
  - intros l Hl Hlt.
    rewrite list_lookup_insert_ne by auto. now apply lookup_app_l.
Qed.

(** X19.  When [random_shadows] raises on an image of the heap, it has
    not written into its argument: every buffer that existed is as it
    was and the argument shows what it showed; one buffer has been
    added, the copy, of the shape of the image.  Unless the argument is
    a view with reversed columns, which [cv2.addWeighted] refuses as its
    destination once the copy is painted, the copy is still the image
    itself. *)
Theorem random_shadows_raises_before_writing
    (image : ndarray) (e : exn) (w w' : world) :
  let img := deref (heap w) image in
  (base image < length (heap w))%nat ->
  random_shadows image w = (Raise e, w') ->
  exists copy,
    heap w' = heap w ++ [copy]
    /\ shape copy = shape img
    /\ deref (heap w') image = img
    /\ (reversed (view image) = false -> copy = img).
Proof.
  intros img0 Hvalid. unfold img0. clear img0.
  unfold random_shadows, ndarray_copy.
  unfold bind at 1, bind at 1, read at 1, alloc at 1.
  unfold bind at 1, read at 1.
  change (heap (set_heap ?h _)) with h. rewrite deref_fresh.
  set (img := deref (heap w) image).
  set (ws := set_heap (heap w ++ [img]) w).
  unfold bind at 1.
  pose proof (keeps_heap_get_shadow_poly
                (Z.of_nat (shape img).1.1) (Z.of_nat (shape img).1.2) ws) as Hk.
  destruct (get_shadow_poly _ _ ws) as [[poly | e0] w1].
  - simpl in Hk. change (heap ws) with (heap w ++ [img]) in Hk.
    unfold bind at 1. rewrite cv2_fillPoly_run. rewrite Hk.
    cbn [base view write_view]. rewrite deref_fresh, heap_alter_fresh.
    unfold bind at 1, np_random_uniform, bind at 1, np_raw, ret.
    destruct (reversed (view image)) eqn:Hlayout.
    + unfold cv2_addWeighted. rewrite Hlayout. unfold raise.
      intros H. injection H as _ <-. cbn [heap set_heap np_advance].
      exists (fill poly (-1) img). split; [reflexivity |].
      split; [apply shape_fill |]. split; [| discriminate].
      apply (deref_app (heap w) [_] image Hvalid).
    + rewrite cv2_addWeighted_into.
      * discriminate.
      * exact Hlayout.
      * cbn [heap set_heap np_advance]. rewrite deref_fresh.
        rewrite (deref_app (heap w) [_] image Hvalid). apply shape_fill.
  - intros H. injection H as _ <-. simpl in Hk.
    change (heap ws) with (heap w ++ [img]) in Hk.
    exists img. split; [exact Hk |]. split; [reflexivity |].
    split; [| reflexivity].
    rewrite Hk. apply (deref_app (heap w) [_] image Hvalid).
Qed.

End Properties.

(** * The properties on concrete inputs *)

Import Uint8.

Lemma solid_shape (rows cols : nat) (v : Z) :
  (0 < rows)%nat -> (0 < cols)%nat -> shape (solid rows cols v) = (rows, cols, 3%nat).
Proof.
  intros Hr Hc. destruct rows as [| r]; [lia |]. destruct cols as [| c]; [lia |].
  unfold shape, solid. cbn [replicate hd].
  now rewrite !length_cons, !length_replicate.
Qed.

Lemma solid_rectangular (rows cols : nat) (v : Z) :
  (0 < rows)%nat -> (0 < cols)%nat -> rectangular (solid rows cols v).
Proof.
  intros Hr Hc. unfold rectangular. rewrite solid_shape by assumption.
  unfold solid. apply Forall_replicate. split.
  - apply length_replicate.
  - now apply Forall_replicate.
Qed.

Lemma solid_rgb_raster (rows cols : nat) (v : Z) :
  (0 < rows)%nat -> (0 < cols)%nat -> rgb_raster (solid rows cols v).
Proof.
  intros Hr Hc. unfold rgb_raster, raster.
  rewrite solid_shape by assumption. simpl.
  repeat split; auto using solid_rectangular.
Qed.

Definition ones : nat -> Z := fun _ => 1%Z.

(** The left camera on the row of [a_row]. *)
Lemma get_random_camera_data_spec_witness :
  (0 <= 0)%Z /\ [a_row] !! Z.to_nat 0 = Some a_row
  /\ get_random_camera_data [a_row] 0 (a_world zeros ones)
     = (Ok ("IMG/left_1.jpg"%string, (fl 0.1 + STEERING_COEFFICIENT)%Qc),
        np_advance (a_world zeros ones)).
Proof.
  split; [lia |]. split; [reflexivity |].
  exact (proj1 (get_random_camera_data_spec [a_row] 0 a_row (a_world zeros ones)
                  (Z.le_refl 0) eq_refl)).
Defined.

(** A flip of the 4 x 6 image: the draw 0 is below 0.5. *)
Lemma random_flip_spec_witness :
  random_flip buf0 (fl 0.1) (fl 0.5) (a_world zeros zeros)
  = (Ok (np_fliplr buf0, (- fl 0.1)%Qc), py_advance (a_world zeros zeros)).
Proof.
  exact (proj1 (random_flip_spec buf0 (fl 0.1) (fl 0.5) (a_world zeros zeros))).
Defined.

(** A shear of the 4 x 6 image with the raw draw 200, that is dx = 0. *)
Lemma random_shear_angle_witness :
  (1 <= 4)%nat /\ (0 < 6)%nat /\ (0 <= 200 < 2 ^ 63 - 1)%Z
  /\ exists sheared,
       (random_shear buf0 (fl 0.1) 200 (a_world zeros (fun _ => 200%Z))).1
       = Ok (sheared, fl 0.1).
Proof.
  split; [lia |]. split; [lia |]. split; [lia |].
  apply (random_shear_angle buf0 (fl 0.1) 200 (a_world zeros (fun _ => 200%Z)));
    [simpl; lia | simpl; lia | lia | reflexivity].
Defined.

(** A crop of a 140 x 2 image. *)
Lemma crop_spec_witness :
  let w := world_of [solid 140 2 7] zeros zeros in
  rectangular (deref (heap w) buf0) /\ (136 <= length (deref (heap w) buf0))%nat
  /\ exists cropped, crop buf0 w = (Ok cropped, w).
Proof.
  intros w.
  assert (Hr : rectangular (deref (heap w) buf0))
    by (apply (solid_rectangular 140 2 7); lia).
  assert (Hl : (136 <= length (deref (heap w) buf0))%nat)
    by (change (deref (heap w) buf0) with (solid 140 2 7); unfold solid;
        rewrite length_replicate; lia).
  split; [exact Hr |]. split; [exact Hl |].
  destruct (crop_spec buf0 w Hr Hl) as (cropped & Hrun & _).
  exists cropped. exact Hrun.
Defined.

(** The three augmentations on the 4 x 6 image. *)
Lemma augmentations_keep_shape_witness :
  let w := a_world zeros zeros in
  rgb_raster (deref (heap w) buf0) /\ (0 <= 200 < 2 ^ 63 - 1)%Z
  /\ exists out w',
       random_brightness buf0 (fl 0.8) (fl 0.4) w = (Ok out, w')
       /\ shape (deref (heap w') out) = (4%nat, 6%nat, 3%nat).
Proof.
  intros w.
  assert (Hr : rgb_raster (deref (heap w) buf0))
    by (apply (solid_rgb_raster 4 6 100); lia).
  assert (Hsr : (0 <= 200 < 2 ^ 63 - 1)%Z) by lia.
  split; [exact Hr |]. split; [exact Hsr |].
  exact (proj2 (proj2 (augmentations_keep_shape buf0 (fl 0.1) (fl 0.5)
                         (fl 0.8) (fl 0.4) 200 w Hr Hsr))).
Defined.

(** Buffer 0 after each of the five transforms. *)
Lemma transforms_keep_buffers_witness :
  let w := a_world zeros zeros in
  heap w !! 0%nat = Some (solid 4 6 100)
  /\ heap (random_brightness buf0 (fl 0.8) (fl 0.4) w).2 !! 0%nat
     = Some (solid 4 6 100).
Proof.
  intros w. split; [reflexivity |].
  exact (proj2 (proj2 (proj2 (proj2
           (transforms_keep_buffers buf0 (fl 0.1) (fl 0.5) (fl 0.8) (fl 0.4)
              200 (3%nat, 2%nat) w 0%nat (solid 4 6 100) eq_refl))))).
Defined.

(** C4 as the specification states it fails: [random_shadows] does not
    leave every existing buffer as it is.  On the 4 x 6 image of value
    100 the blend is written into buffer 0, the caller's image. *)
Lemma random_shadows_writes_its_argument :
  let w := a_world (fun _ => 2%Z) zeros in
  heap w !! 0%nat = Some (solid 4 6 100)
  /\ heap (random_shadows buf0 w).2 !! 0%nat <> Some (solid 4 6 100).
Proof.
  intros w. split; [reflexivity |].
  intros H. vm_compute in H. discriminate H.
Qed.

(** A log whose files the loader does not know: the loader's exception is
    what [next] raises. *)
Lemma generator_propagates_failure_witness :
  let w := a_world zeros zeros in
  let g := generate_next_batch [lost_row] 1 true in
  next g w = (Raise (IOError "IMG/lost.jpg"), finished g, np_advance (np_advance w)).
Proof.
  intros w g.
  apply (proj1 (proj2 (generator_propagates_failure [lost_row] 1 true w))
           [("IMG/lost.jpg"%string, fl 0.1)] [] "IMG/lost.jpg"%string (fl 0.1) []
           [] [] (np_advance (np_advance w)) (np_advance (np_advance w))
           (IOError "IMG/lost.jpg"));
    reflexivity.
Defined.

(** The generator without augmentation on the log of [a_row]. *)
Lemma generate_next_batch_resize_dim_unbound_witness :
  let w := a_world zeros zeros in
  let g := generate_next_batch [a_row] 2 false in
  exists w', next g w = (Raise (NameError "resize_dim"), finished g, w').
Proof.
  intros w g.
  apply (generate_next_batch_resize_dim_unbound [a_row] 2 w).
  - discriminate.
  - lia.
  - reflexivity.
  - intros row path Hrow Hpath.
    apply list_elem_of_singleton in Hrow. subst row.
    exists (solid 4 6 100).
    unfold camera_paths in Hpath. rewrite !elem_of_cons in Hpath.
    destruct Hpath as [-> | [-> | [-> | Hnil]]]; try reflexivity.
    now apply not_elem_of_nil in Hnil.
Defined.

(** A 160 x 320 frame: the corners (x, 320) are below its 160 rows. *)
Lemma get_shadow_poly_transposed_witness :
  exists poly,
    get_shadow_poly 160 320 (a_world zeros zeros)
    = (Ok poly, after_poly (a_world zeros zeros))
    /\ spans_image 160 320 poly = false.
Proof.
  apply (get_shadow_poly_transposed 80 160 (a_world zeros zeros));
    [lia | reflexivity].
Defined.

(** A 3 x 4 image. *)
Lemma random_shadows_odd_rows_witness :
  (random_shadows buf0 (world_of [solid 3 4 100] zeros zeros)).1
  = Raise (ValueError "non-integer stop for randrange()").
Proof.
  apply (random_shadows_odd_rows buf0 1 (world_of [solid 3 4 100] zeros zeros));
    reflexivity.
Defined.

(** ** The further properties on concrete inputs *)

Lemma random_flip_extremes_witness :
  (0 <= 0)%Qc
  /\ random_flip buf0 (fl 0.1) 0%Qc (a_world zeros zeros)
     = (Ok (buf0, fl 0.1), py_advance (a_world zeros zeros)).
Proof.
  split; [apply Qcle_refl |].
  exact (proj1 (random_flip_extremes buf0 (fl 0.1) 0%Qc (a_world zeros zeros))
           (Qcle_refl 0%Qc)).
Defined.


Lemma next_batch_spec_witness :
  [a_row] <> []
  /\ exists batch w',
       next_batch [a_row] 2 (a_world zeros ones) = (Ok batch, w')
       /\ length batch = 2%nat.
Proof.
  assert (Hne : [a_row] <> []) by discriminate.
  split; [exact Hne |].
  destruct (next_batch_spec [a_row] 2 (a_world zeros ones) Hne)
    as (batch & w' & Hrun & Hlen & _).
  exists batch, w'. split; [exact Hrun | exact Hlen].
Defined.

Lemma next_batch_empty_log_witness :
  (0 < 2)%nat
  /\ exists msg,
       next_batch [] 2 (a_world zeros zeros)
       = (Raise (ValueError msg), a_world zeros zeros).
Proof.
  split; [lia |].
  destruct (next_batch_empty_log 2 true (a_world zeros zeros) (Nat.lt_0_succ 1))
    as (msg & Hrun & _).
  exists msg. exact Hrun.
Defined.

Lemma get_random_camera_data_index_witness :
  (Z.of_nat (length [a_row]) <= 1 \/ 1 < - Z.of_nat (length [a_row]))%Z
  /\ get_random_camera_data [a_row] 1 (a_world zeros zeros)
     = (Raise IndexError, np_advance (a_world zeros zeros)).
Proof.
  assert (H : (Z.of_nat (length [a_row]) <= 1
               \/ 1 < - Z.of_nat (length [a_row]))%Z) by (left; simpl; lia).
  split; [exact H |].
  exact (proj1 (get_random_camera_data_index [a_row] 1 (a_world zeros zeros)) H).
Defined.

Lemma get_shadow_poly_succeeds_iff_witness :
  (0 <= 3 < 2 ^ 53)%Z /\ (0 <= 4 < 2 ^ 53)%Z
  /\ get_shadow_poly 3 4 (a_world zeros zeros)
     = (Raise (ValueError "non-integer stop for randrange()"),
        np_advance (a_world zeros zeros)).
Proof.
  split; [lia |]. split; [lia |].
  apply (proj2 (get_shadow_poly_succeeds_iff 3 4 (a_world zeros zeros)
                  ltac:(lia) ltac:(lia))).
  reflexivity.
Defined.

Lemma random_flip_twice_witness :
  exists out,
    bind (random_flip buf0 (fl 0.1) (fl 0.5))
         (fun r => random_flip r.1 r.2 (fl 0.5)) (a_world zeros zeros)
    = (Ok (out, fl 0.1), py_advance (py_advance (a_world zeros zeros)))
    /\ base out = 0%nat.
Proof.
  destruct (random_flip_twice buf0 (fl 0.1) (fl 0.5) (a_world zeros zeros)
              eq_refl eq_refl) as (out & Hrun & Hbase & _).
  exists out. split; [exact Hrun | exact Hbase].
Defined.

Lemma crop_any_height_witness :
  let w := world_of [solid 100 2 7] zeros zeros in
  rectangular (deref (heap w) buf0)
  /\ exists cropped,
       crop buf0 w = (Ok cropped, w)
       /\ length (deref (heap w) cropped) = 40%nat.
Proof.
  intros w.
  assert (Hr : rectangular (deref (heap w) buf0))
    by (apply (solid_rectangular 100 2 7); lia).
  split; [exact Hr |].
  destruct (crop_any_height buf0 w Hr) as (cropped & Hrun & Hlen & _).
  exists cropped. split; [exact Hrun |].
  rewrite Hlen. change (deref (heap w) buf0) with (solid 100 2 7).
  unfold solid. rewrite length_replicate. reflexivity.
Defined.

Lemma crop_twice_witness :
  let w := world_of [solid 140 2 7] zeros zeros in
  rectangular (deref (heap w) buf0) /\ (136 <= length (deref (heap w) buf0))%nat
  /\ exists cropped,
       bind (crop buf0) crop w = (Ok cropped, w)
       /\ length (deref (heap w) cropped) = 16%nat.
Proof.
  intros w.
  assert (Hr : rectangular (deref (heap w) buf0))
    by (apply (solid_rectangular 140 2 7); lia).
  assert (Hl : (136 <= length (deref (heap w) buf0))%nat)
    by (change (deref (heap w) buf0) with (solid 140 2 7); unfold solid;
        rewrite length_replicate; lia).
  split; [exact Hr |]. split; [exact Hl |].
  destruct (crop_twice buf0 w Hr Hl) as (cropped & Hrun & Hlen & _).
  exists cropped. split; [exact Hrun | exact Hlen].
Defined.

Lemma random_shear_range_edges_witness :
  (-1 < 0)%Z
  /\ random_shear buf0 (fl 0.1) (-1) (a_world zeros zeros)
     = (Raise (ValueError "low >= high"), a_world zeros zeros).
Proof.
  split; [lia |].
  apply (proj1 (random_shear_range_edges buf0 (fl 0.1) (-1) (a_world zeros zeros))).
  lia.
Defined.

Lemma random_shear_angle_bounded_witness :
  let w := a_world zeros (fun _ => 7%Z) in
  (1 <= (shape (deref (heap w) buf0)).1.1)%nat
  /\ (0 < (shape (deref (heap w) buf0)).1.2)%nat
  /\ (0 <= 200 < 2 ^ 63 - 1)%Z
  /\ exists out angle w',
       random_shear buf0 (fl 0.1) 200 w = (Ok (out, angle), w').
Proof.
  intros w.
  assert (H1 : (1 <= (shape (deref (heap w) buf0)).1.1)%nat) by (simpl; lia).
  assert (H2 : (0 < (shape (deref (heap w) buf0)).1.2)%nat) by (simpl; lia).
  split; [exact H1 |]. split; [exact H2 |]. split; [lia |].
  destruct (random_shear_angle_bounded buf0 (fl 0.1) 200 w H1 H2 ltac:(lia))
    as (out & angle & w' & Hrun & _).
  exists out, angle, w'. exact Hrun.
Defined.

Lemma random_brightness_channels_witness :
  let w := world_of [rgba] zeros zeros in
  (shape (deref (heap w) buf0)).2 = 4%nat
  /\ exists out w',
       random_brightness buf0 (fl 0.8) (fl 0.4) w = (Ok out, w')
       /\ shape (deref (heap w') out) = (2%nat, 2%nat, 3%nat).
Proof.
  intros w. split; [reflexivity |].
  exact (proj1 (random_brightness_channels buf0 (fl 0.8) (fl 0.4) w) eq_refl).
Defined.

Lemma flipped_view_follows_shadows_witness :
  let w := a_world (fun _ => 2%Z) zeros in
  exists w2,
    (bind (random_flip buf0 (fl 0.1) (fl 0.5))
          (fun r => bind (random_shadows buf0) (fun _ => read r.1)) w).2 = w2
    /\ deref (heap w2) buf0 <> solid 4 6 100.
Proof.
  intros w.
  destruct (flipped_view_follows_shadows buf0 (fl 0.1) (fl 0.5) 2 3 w)
    as (w2 & Hrun & Hout); try reflexivity; [discriminate |].
  exists w2. split; [now rewrite Hrun |].
  rewrite Hout. vm_compute. discriminate.
Defined.

Lemma augmented_batch_keeps_file_shapes_witness :
  let w := a_world zeros zeros in
  exists X y w',
    next (generate_next_batch [a_row] 2 true) w
    = (Ok (X, y), generate_next_batch [a_row] 2 true, w')
    /\ length X = 2%nat
    /\ Forall (fun i => shape i = (4%nat, 6%nat, 3%nat)) X.
Proof.
  intros w.
  destruct (augmented_batch_keeps_file_shapes [a_row] 2 4 6 3 w)
    as (X & y & w' & Hrun & HX & _ & Hshapes & _).
  - discriminate.
  - lia.
  - lia.
  - now left.
  - intros row path Hrow Hpath.
    apply list_elem_of_singleton in Hrow. subst row.
    exists (solid 4 6 100).
    unfold camera_paths in Hpath. rewrite !elem_of_cons in Hpath.
    destruct Hpath as [-> | [-> | [-> | Hnil]]];
      try (split; reflexivity).
    now apply not_elem_of_nil in Hnil.
  - exists X, y, w'. split; [exact Hrun |]. split; [exact HX | exact Hshapes].
Defined.

Lemma resized_batch_when_bound_witness :
  let w := bound_world zeros zeros in
  exists X y w',
    next (generate_next_batch [a_row] 2 false) w
    = (Ok (X, y), generate_next_batch [a_row] 2 false, w')
    /\ Forall (fun i => (shape i).1 = (32%nat, 64%nat)) X.
Proof.
  intros w.
  destruct (resized_batch_when_bound [a_row] 2 64 32 3 w)
    as (batch & w1 & X & w' & _ & Hrun & _ & HX).
  - discriminate.
  - lia.
  - lia.
  - now left.
  - reflexivity.
  - intros row path _ _. exists (solid 70 4 9).
    split; [reflexivity |]. split; [apply solid_rectangular; lia |].
    unfold solid. rewrite length_replicate. split; [lia |].
    change (replicate 70 (replicate 4 [9; 9; 9]%Z)) with (solid 70 4 9).
    rewrite solid_shape by lia. simpl. split; [lia | reflexivity].
  - exists X, (batch.*2), w'. split; [exact Hrun | exact HX].
Defined.

Lemma get_shadow_poly_own_axes_witness :
  (0 <= 2 * 2 < 2 ^ 53)%Z /\ (0 <= 2 * 3 < 2 ^ 53)%Z
  /\ exists poly,
       get_shadow_poly 4 6 (a_world zeros zeros)
       = (Ok poly, after_poly (a_world zeros zeros))
       /\ spans_image 6 4 poly = true.
Proof.
  split; [lia |]. split; [lia |].
  destruct (get_shadow_poly_own_axes 2 3 (a_world zeros zeros))
    as (poly & Hrun & Hspan & _); [lia | lia |].
  exists poly. split; [exact Hrun | exact Hspan].
Defined.

Lemma random_shadows_even_shape_witness :
  let w := a_world (fun _ => 2%Z) zeros in
  exists w',
    random_shadows buf0 w = (Ok buf0, w')
    /\ shape (deref (heap w') buf0) = (4%nat, 6%nat, 3%nat).
Proof.
  intros w.
  destruct (random_shadows_even_shape buf0 2 3 w) as (w' & Hrun & Hshape);
    try reflexivity; [discriminate |].
  exists w'. split; [exact Hrun | exact Hshape].
Defined.

Lemma random_shadows_writes_only_its_argument_witness :
  let w := world_of [solid 4 6 100; solid 2 2 5] (fun _ => 2%Z) zeros in
  length (heap (random_shadows buf0 w).2) = 3%nat
  /\ heap (random_shadows buf0 w).2 !! 1%nat = Some (solid 2 2 5).
Proof.
  intros w.
  destruct (random_shadows_writes_only_its_argument buf0 2 3 w) as [Hlen Hkeep];
    try reflexivity; [discriminate |].
  split; [exact Hlen |].
  assert (Hne : 1%nat <> base buf0) by discriminate.
  assert (Hlt : (1 < length (heap w))%nat) by (simpl; lia).
  exact (Hkeep 1%nat Hne Hlt).
Defined.

(** An image of three rows, on which the polygon is refused, and the
    mirror of the 4 x 6 image, which the blend refuses as its
    destination. *)
Lemma random_shadows_raises_before_writing_witness :
  let w := world_of [solid 3 4 100] zeros zeros in
  let v := a_world (fun _ => 2%Z) zeros in
  ((base buf0 < length (heap w))%nat
   /\ heap (random_shadows buf0 w).2 = [solid 3 4 100; solid 3 4 100])
  /\ ((base (np_fliplr buf0) < length (heap v))%nat
      /\ (exists msg, (random_shadows (np_fliplr buf0) v).1 = Raise (cv2_error msg))
      /\ heap (random_shadows (np_fliplr buf0) v).2 !! 0%nat
         = Some (solid 4 6 100)).
Proof.
  intros w v.
  assert (Hw : (base buf0 < length (heap w))%nat) by (simpl; lia).
  assert (Hv : (base (np_fliplr buf0) < length (heap v))%nat) by (simpl; lia).
  split; (split; [assumption |]).
  - destruct (random_shadows buf0 w) as [[a | e] w'] eqn:Hrun.
    + exfalso. apply (f_equal fst) in Hrun. vm_compute in Hrun.
      discriminate Hrun.
    + destruct (random_shadows_raises_before_writing buf0 e w w' Hw Hrun)
        as (copy & Hheap & _ & _ & Hcopy).
      cbn [snd]. rewrite Hheap, (Hcopy eq_refl). reflexivity.
  - destruct (random_shadows (np_fliplr buf0) v) as [[a | e] v'] eqn:Hrun.
    + exfalso. apply (f_equal fst) in Hrun. vm_compute in Hrun.
      discriminate Hrun.
    + split.
      * apply (f_equal fst) in Hrun. vm_compute in Hrun.
        injection Hrun as <-. eexists. reflexivity.
      * destruct (random_shadows_raises_before_writing
                    (np_fliplr buf0) e v v' Hv Hrun) as (copy & Hheap & _).
        cbn [snd]. rewrite Hheap. reflexivity.
Defined.
